(** * The cube collision / subdivision simulation of portfolioMilestone.js

    A shallow embedding of the simulation core of [portfolioMilestone.js]
    (the variant with the uniform-grid broad phase): the parallel per-cube
    arrays, [SpatialGrid], [checkCollisions], [splitCube],
    [updateColorTransition], the colour-sync handler and the per-cube part of
    [render].  WebGL calls, matrices and DOM wiring have no effect on the
    simulation state and are left out.

    Conventions of the embedding.
    - JavaScript numbers are exact rationals ([Q]); rounding of IEEE doubles
      is not modelled.  The only division of the program is in the
      [SpatialGrid] constructor, where a zero divisor is treated separately.
    - The module-level arrays [positions], [angles], [speeds], [colors] and
      [directions] are the fields of one [World] record that every function
      threads through.  An object stored in an array is never shared between
      two slots (the program copies colours with a spread), so in-place
      mutation of [positions[i]] is a list update at [i].
    - [Math.random()] reads an oracle [random : nat -> Q]; the world counts
      the calls made so far in [rng].
    - A function returns [None] where the program would read a property of
      [undefined] (an index outside [positions], [colors] or [directions]);
      it also does where the program would go on with [undefined] or [NaN]
      for an index outside [angles] or [speeds].  The program never gets
      there: the five arrays keep equal lengths (see [aligned]). *)

From Stdlib Require Import QArith Qabs Qround Qminmax Qpower Lqa ZArith Lia.
From stdpp Require Import base option list.

(** ** Data *)

(** An element of [positions]: [{ x, y, z, hasSplit }]. *)
Record Position := mkPosition { x : Q; y : Q; z : Q; hasSplit : bool }.

(** An element of [directions]: [{ dx, dy, dz }]. *)
Record Direction := mkDirection { dx : Q; dy : Q; dz : Q }.

(** A colour array [[R, G, B, A]]; the program only builds arrays of four
    numbers and reads or writes them at the indices 0 to 3. *)
Record RGBA := mkRGBA { red : Q; green : Q; blue : Q; alpha : Q }.

(** An element of [colors]: [{ current, target, step }]. *)
Record ColorState := mkColorState { current : RGBA; target : RGBA; step : Q }.

(** The constant [boundary]: [{ x, y, z }]. *)
Record Boundary := mkBoundary { bx : Q; by_ : Q; bz : Q }.

(** The fields of a [SpatialGrid] object. *)
Record SpatialGrid :=
  mkSpatialGrid { cellSize : Q; gridSize : Z; grid : list (list nat) }.

(** The module-level state of the simulation. *)
Record World := mkWorld {
  positions : list Position;
  angles : list Q;
  speeds : list Q;
  colors : list ColorState;
  directions : list Direction;
  spatialGrid : SpatialGrid;
  rng : nat
}.

Definition set_positions (w : World) (l : list Position) : World :=
  mkWorld l (angles w) (speeds w) (colors w) (directions w) (spatialGrid w) (rng w).

Definition set_angles (w : World) (l : list Q) : World :=
  mkWorld (positions w) l (speeds w) (colors w) (directions w) (spatialGrid w) (rng w).

Definition set_speeds (w : World) (l : list Q) : World :=
  mkWorld (positions w) (angles w) l (colors w) (directions w) (spatialGrid w) (rng w).

Definition set_colors (w : World) (l : list ColorState) : World :=
  mkWorld (positions w) (angles w) (speeds w) l (directions w) (spatialGrid w) (rng w).

Definition set_directions (w : World) (l : list Direction) : World :=
  mkWorld (positions w) (angles w) (speeds w) (colors w) l (spatialGrid w) (rng w).

Definition set_spatialGrid (w : World) (g : SpatialGrid) : World :=
  mkWorld (positions w) (angles w) (speeds w) (colors w) (directions w) g (rng w).

Definition set_rng (w : World) (n : nat) : World :=
  mkWorld (positions w) (angles w) (speeds w) (colors w) (directions w) (spatialGrid w) n.

(** [a < b] on numbers, as a boolean. *)
Definition Qltb (a b : Q) : bool := negb (Qle_bool b a).

(** The constant [boundary] of the program. *)
Definition boundary0 : Boundary := mkBoundary 1.5 1.0 (-4.0).

(** ** The [SpatialGrid] constructor *)

(** [new Array(len).fill().map(() => [])].  [new Array(len)] throws a
    RangeError unless [len] is an integer between 0 and 2^32 - 1; the
    argument is [None] when the number is not finite (an infinity or NaN),
    which throws as well.  Minus zero counts as 0. *)
Definition new_cells (len : option Z) : option (list (list nat)) :=
  match len with
  | Some n =>
      if ((0 <=? n) && (n <? 2 ^ 32))%Z then Some (replicate (Z.to_nat n) [])
      else None
  | None => None
  end.

(** [Math.ceil(worldSize * 2 / cellSize)]: the quotient by zero is an
    infinity or NaN, which [Math.ceil] returns as it is ([None] here). *)
Definition ceil_quot (worldSize cellSize : Q) : option Z :=
  if Qeq_bool cellSize 0 then None
  else Some (Qceiling (worldSize * 2 / cellSize)).

(** [new SpatialGrid(worldSize, cellSize)]; [None] is the RangeError of the
    array allocation.  The constructor has no check of its own. *)
Definition SpatialGrid_new (worldSize cellSize : Q) : option SpatialGrid :=
  let gs := ceil_quot worldSize cellSize in
  cells ← new_cells ((λ g, g * g * g)%Z <$> gs);
  g ← gs;
  Some (mkSpatialGrid cellSize g cells).

(** [Math.max(boundary.x, boundary.y, Math.abs(boundary.z))], the first
    argument of the constructor call that initialises [spatialGrid]. *)
Definition worldSize_of (b : Boundary) : Q :=
  Qmax (Qmax (bx b) (by_ b)) (Qabs (bz b)).

(** [const spatialGrid = new SpatialGrid(Math.max(...), cellSize)], with the
    boundary and the cell size (0.5 in the program) as the configuration. *)
Definition init_spatialGrid (b : Boundary) (cell : Q) : option SpatialGrid :=
  SpatialGrid_new (worldSize_of b) cell.

(** ** Colours *)

Section Simulation.

(** The values returned by the successive calls of [Math.random()]. *)
Variable random : nat -> Q.

(** The constant [boundary]. *)
Variable boundary : Boundary.

(** [getRandomColor()], called when [n] random numbers have been drawn. *)
Definition getRandomColor (n : nat) : RGBA * nat :=
  (mkRGBA (random n) (random (n + 1)) (random (n + 2)) 1.0, (n + 3)%nat).

(** One channel of the loop of [updateColorTransition]. *)
Definition blend (cur tgt : Q) : Q := (cur + (tgt - cur) * 0.02)%Q.

(** [updateColorTransition(colorObj)]: the updated object and the number of
    random draws made so far. *)
Definition updateColorTransition (colorObj : ColorState) (n : nat)
  : ColorState * nat :=
  let step1 := (step colorObj + 0.005)%Q in
  let cur := current colorObj in
  let tgt := target colorObj in
  let cur1 := mkRGBA (blend (red cur) (red tgt))
                     (blend (green cur) (green tgt))
                     (blend (blue cur) (blue tgt))
                     (alpha cur) in
  if Qle_bool 1 step1 then
    let '(t, n1) := getRandomColor n in
    (mkColorState cur1 t 0, n1)
  else (mkColorState cur1 tgt step1, n).

(** [colors.forEach(cubeColor => { ... })] of the colour-sync handler: each
    object gets a copy of [color] and a target of its own; [step] is not
    assigned. *)
Fixpoint colorSync_loop (color : RGBA) (cs : list ColorState) (n : nat)
  : list ColorState * nat :=
  match cs with
  | [] => ([], n)
  | cubeColor :: rest =>
      let '(t, n1) := getRandomColor n in
      let '(rest', n2) := colorSync_loop color rest n1 in
      (mkColorState color t (step cubeColor) :: rest', n2)
  end.

(** The [onclick] handler of [colorSyncButton]. *)
Definition colorSync (w : World) : World :=
  let '(color, n1) := getRandomColor (rng w) in
  let '(cs, n2) := colorSync_loop color (colors w) n1 in
  set_rng (set_colors w cs) n2.

(** ** The spatial grid *)

(** [getGridIndex(x, y, z)]. *)
Definition getGridIndex (g : SpatialGrid) (px py pz : Q) : Z :=
  let gridX := Qfloor ((px + bx boundary) / cellSize g) in
  let gridY := Qfloor ((py + by_ boundary) / cellSize g) in
  let gridZ := Qfloor ((pz + Qabs (bz boundary)) / cellSize g) in
  (gridX + gridY * gridSize g + gridZ * gridSize g * gridSize g)%Z.

(** [gridIndex >= 0 && gridIndex < this.grid.length]. *)
Definition in_grid (cells : list (list nat)) (gridIndex : Z) : bool :=
  ((0 <=? gridIndex) && (gridIndex <? Z.of_nat (length cells)))%Z.

(** [this.grid[gridIndex].push(index)]. *)
Definition cell_push (cells : list (list nat)) (gridIndex : Z) (index : nat)
  : list (list nat) :=
  alter (λ cell, cell ++ [index]) (Z.to_nat gridIndex) cells.

(** The callback of [positions.forEach] in [updateGrid]. *)
Definition updateGrid_each (g : SpatialGrid) (cells : list (list nat))
  (pos : Position) (index : nat) : list (list nat) :=
  let gridIndex := getGridIndex g (x pos) (y pos) (z pos) in
  if in_grid cells gridIndex then cell_push cells gridIndex index else cells.

(** [positions.forEach((pos, index) => ...)] from the index [index] on. *)
Fixpoint updateGrid_loop (g : SpatialGrid) (cells : list (list nat))
  (ps : list Position) (index : nat) : list (list nat) :=
  match ps with
  | [] => cells
  | pos :: rest =>
      updateGrid_loop g (updateGrid_each g cells pos index) rest (S index)
  end.

(** [spatialGrid.updateGrid()]. *)
Definition updateGrid (w : World) : World :=
  let g := spatialGrid w in
  let cleared := (λ _ : list nat, @nil nat) <$> grid g in
  set_spatialGrid w
    (mkSpatialGrid (cellSize g) (gridSize g)
       (updateGrid_loop g cleared (positions w) 0)).

(** [candidates.add(idx)] on a [Set], kept in insertion order. *)
Definition Set_add (candidates : list nat) (idx : nat) : list nat :=
  if decide (idx ∈ candidates) then candidates else candidates ++ [idx].

(** The offsets -1, 0, 1 of the three nested loops. *)
Definition offsets : list Z := [-1; 0; 1]%Z.

(** The innermost body of [getPotentialCollisions]. *)
Definition scan_cell (g : SpatialGrid) (cubeIndex : nat) (gridIndex : Z)
  (candidates : list nat) (ox oy oz : Z) : list nat :=
  let neighborIndex :=
    (gridIndex + ox + oy * gridSize g + oz * gridSize g * gridSize g)%Z in
  if in_grid (grid g) neighborIndex then
    foldl (λ cand idx, if decide (idx ≠ cubeIndex) then Set_add cand idx else cand)
          candidates
          (default [] (grid g !! Z.to_nat neighborIndex))
  else candidates.

(** [spatialGrid.getPotentialCollisions(cubeIndex)]. *)
Definition getPotentialCollisions (w : World) (cubeIndex : nat)
  : option (list nat) :=
  pos ← positions w !! cubeIndex;
  let g := spatialGrid w in
  let gridIndex := getGridIndex g (x pos) (y pos) (z pos) in
  Some (foldl (λ c1 ox,
          foldl (λ c2 oy,
            foldl (λ c3 oz, scan_cell g cubeIndex gridIndex c3 ox oy oz)
                  c2 offsets)
            c1 offsets)
        [] offsets).

(** ** Subdivision *)

(** [const smallScale = 0.1]. *)
Definition smallScale : Q := 0.1.

(** [(i & m) ? smallScale : -smallScale]. *)
Definition octant_offset (i m : Z) : Q :=
  if (Z.land i m =? 0)%Z then (- smallScale)%Q else smallScale.

(** One iteration of the loop of [splitCube]: the five pushes, with the
    random target drawn before the random velocity.  The pushed angle, speed
    and colour read the parent's slots, which the pushes do not change. *)
Definition splitCube_body (index : nat) (originalPos : Position) (i : Z)
  (w : World) : option World :=
  let xOffset := octant_offset i 1 in
  let yOffset := octant_offset i 2 in
  let zOffset := octant_offset i 4 in
  let w1 := set_positions w
    (positions w ++ [mkPosition (x originalPos + xOffset)
                                (y originalPos + yOffset)
                                (z originalPos + zOffset) true]) in
  a ← angles w1 !! index;
  let w2 := set_angles w1 (angles w1 ++ [a]) in
  s ← speeds w2 !! index;
  let w3 := set_speeds w2 (speeds w2 ++ [(s * 1.2)%Q]) in
  c ← colors w3 !! index;
  let '(t, n1) := getRandomColor (rng w3) in
  let w4 := set_rng (set_colors w3 (colors w3 ++ [mkColorState (current c) t 0])) n1 in
  let n := rng w4 in
  let d := mkDirection ((random n - 0.5) * 0.01)
                       ((random (n + 1) - 0.5) * 0.01)
                       ((random (n + 2) - 0.5) * 0.01) in
  Some (set_rng (set_directions w4 (directions w4 ++ [d])) (n + 3)).

(** [for (let i = 0; i < 8; i++)], as a loop over the listed values of [i]. *)
Fixpoint for_each {A S : Type} (body : A -> S -> option S) (l : list A) (s : S)
  : option S :=
  match l with
  | [] => Some s
  | i :: rest => s1 ← body i s; for_each body rest s1
  end.

(** [splitCube(index)]. *)
Definition splitCube (index : nat) (w : World) : option World :=
  originalPos ← positions w !! index;
  for_each (splitCube_body index originalPos) [0; 1; 2; 3; 4; 5; 6; 7]%Z w.

(** ** Collisions *)

(** [const cubeSize = 0.2]. *)
Definition cubeSize : Q := 0.2.

(** The narrow-phase test of [checkCollisions]. *)
Definition collision (cube other : Position) : bool :=
  Qltb (Qabs (x cube - x other)) cubeSize &&
  Qltb (Qabs (y cube - y other)) cubeSize &&
  Qltb (Qabs (z cube - z other)) cubeSize.

(** [directions[cubeIndex].dx *= -1] and the same for [dy] and [dz]. *)
Definition reverse (d : Direction) : Direction :=
  mkDirection (dx d * -1) (dy d * -1) (dz d * -1).

(** [cube.hasSplit = true]. *)
Definition mark_split (p : Position) : Position :=
  mkPosition (x p) (y p) (z p) true.

(** The loop [for (const i of candidates)] of [checkCollisions], with the
    value returned. *)
Fixpoint checkCollisions_loop (cubeIndex : nat) (candidates : list nat)
  (w : World) : option (bool * World) :=
  match candidates with
  | [] => Some (false, w)
  | i :: rest =>
      cube ← positions w !! cubeIndex;
      other ← positions w !! i;
      if collision cube other then
        if negb (hasSplit cube) then
          w1 ← splitCube cubeIndex w;
          Some (true, set_positions w1 (alter mark_split cubeIndex (positions w1)))
        else
          d ← directions w !! cubeIndex;
          checkCollisions_loop cubeIndex rest
            (set_directions w (<[cubeIndex := reverse d]> (directions w)))
      else checkCollisions_loop cubeIndex rest w
  end.

(** [checkCollisions(cubeIndex)]. *)
Definition checkCollisions (cubeIndex : nat) (w : World)
  : option (bool * World) :=
  candidates ← getPotentialCollisions w cubeIndex;
  checkCollisions_loop cubeIndex candidates w.

(** ** The frame *)

(** [positions[i].x += directions[i].dx] and the same for [y] and [z]. *)
Definition move (p : Position) (d : Direction) : Position :=
  mkPosition (x p + dx d) (y p + dy d) (z p + dz d) (hasSplit p).

(** [if (positions[i].x > boundary.x || positions[i].x < -boundary.x)
      directions[i].dx *= -1;] *)
Definition bounce_x (p : Position) (d : Direction) : Direction :=
  if Qltb (bx boundary) (x p) || Qltb (x p) (- bx boundary)
  then mkDirection (dx d * -1) (dy d) (dz d) else d.

(** [if (positions[i].y > boundary.y || positions[i].y < -boundary.y)
      directions[i].dy *= -1;] *)
Definition bounce_y (p : Position) (d : Direction) : Direction :=
  if Qltb (by_ boundary) (y p) || Qltb (y p) (- by_ boundary)
  then mkDirection (dx d) (dy d * -1) (dz d) else d.

(** [if (positions[i].z > -0.5 || positions[i].z < boundary.z)
      directions[i].dz *= -1;] *)
Definition bounce_z (p : Position) (d : Direction) : Direction :=
  if Qltb (-0.5) (z p) || Qltb (z p) (bz boundary)
  then mkDirection (dx d) (dy d) (dz d * -1) else d.

(** The three boundary checks at the end of the loop body of [render]. *)
Definition bounce (p : Position) (d : Direction) : Direction :=
  bounce_z p (bounce_y p (bounce_x p d)).

(** The state-changing part of the loop body of [render] for the cube [i]. *)
Definition render_body (i : nat) (w : World) : option World :=
  color ← colors w !! i;
  let '(color1, n1) := updateColorTransition color (rng w) in
  let w1 := set_rng (set_colors w (<[i := color1]> (colors w))) n1 in
  '(_, w2) ← checkCollisions i w1;
  a ← angles w2 !! i;
  s ← speeds w2 !! i;
  let w3 := set_angles w2 (<[i := (a + s)%Q]> (angles w2)) in
  p ← positions w3 !! i;
  d ← directions w3 !! i;
  let p1 := move p d in
  let w4 := set_positions w3 (<[i := p1]> (positions w3)) in
  Some (set_directions w4 (<[i := bounce p1 d]> (directions w4))).

(** [for (let i = 0; i < positions.length; i++)]: the bound is read again
    before every iteration.  [fuel] bounds the number of iterations for the
    sake of structural recursion; [render_loop_fuel] shows that the loop
    never stops for want of it. *)
Fixpoint render_loop (fuel : nat) (i : nat) (w : World) : option World :=
  if (i <? length (positions w))%nat then
    match fuel with
    | O => None
    | S fuel1 => w1 ← render_body i w; render_loop fuel1 (S i) w1
    end
  else Some w.

(** Iterations granted to one frame: a cube splits at most once and a split
    adds eight cubes that never split (see [render_fuel_enough]). *)
Definition render_fuel (w : World) : nat := 9 * length (positions w).

(** One frame of [render] (with [animationPaused] false). *)
Definition render (w : World) : option World :=
  let w1 := updateGrid w in
  render_loop (render_fuel w1) 0 w1.

End Simulation.

(** ** The initial state of the program *)

(** The initial [positions]. *)
Definition positions0 : list Position :=
  [ mkPosition (-0.5) 0.0 (-2.0) false;
    mkPosition 0.0 0.0 (-2.5) false;
    mkPosition 0.5 0.0 (-3.0) false;
    mkPosition (-1.0) 0.5 (-2.5) false;
    mkPosition 1.0 (-0.5) (-2.5) false;
    mkPosition 0.0 1.0 (-3.5) false ].

(** The initial [directions]. *)
Definition directions0 : list Direction :=
  [ mkDirection 0.005 0.003 0.002;
    mkDirection (-0.004) 0.004 0.003;
    mkDirection 0.003 (-0.005) 0.004;
    mkDirection 0.006 (-0.004) 0.003;
    mkDirection (-0.005) 0.005 (-0.002);
    mkDirection 0.004 0.003 (-0.004) ].

(** [Array.from({ length: 6 }, () => ({ current: [...], target: [...], step: 0 }))]:
    six random draws per cube. *)
Definition colors0 (random : nat -> Q) : list ColorState :=
  (λ k : nat,
     mkColorState
       (mkRGBA (random (6 * k)%nat) (random (6 * k + 1)%nat) (random (6 * k + 2)%nat) 1.0)
       (mkRGBA (random (6 * k + 3)%nat) (random (6 * k + 4)%nat) (random (6 * k + 5)%nat) 1.0)
       0) <$> seq 0 6.

(** The grid of the program: [new SpatialGrid(4, 0.5)], 16^3 empty cells. *)
Definition spatialGrid0 : SpatialGrid :=
  mkSpatialGrid 0.5 16 (replicate 4096 []).

(** The state of the program before the first frame. *)
Definition world0 (random : nat -> Q) : World :=
  mkWorld positions0 [0; 0; 0; 0; 0; 0]%Q
          [0.01; 0.02; 0.015; 0.017; 0.018; 0.016]%Q
          (colors0 random) directions0 spatialGrid0 36.

(** ** Worlds and oracles used in the examples *)

(** An oracle that always answers 0.5. *)
Definition random_half (n : nat) : Q := 0.5.

(** An oracle whose answers differ from call to call: 1/(n+2). *)
Definition random_inv (n : nat) : Q := 1 # Pos.of_nat (n + 2).

(** A boundary whose three extents are zero. *)
Definition boundary_zero : Boundary := mkBoundary 0 0 0.

(** One cube whose colour transition is half way ([step] is 0.5). *)
Definition one_cube : World :=
  mkWorld [mkPosition 0 0 (-2) false] [0%Q] [0.01%Q]
          [mkColorState (mkRGBA 0.2 0.4 0.6 1.0) (mkRGBA 0.9 0.1 0.3 1.0) 0.5]
          [mkDirection 0.005 0.003 0.002] spatialGrid0 0.

(** Two cubes 0.1 apart that have just passed the far bound [z = -4]. *)
Definition far_pair : World :=
  mkWorld [mkPosition 0 0 (-4.003) true; mkPosition 0.1 0 (-4.003) true]
          [0; 0]%Q [0.01; 0.02]%Q
          [mkColorState (mkRGBA 0.2 0.4 0.6 1.0) (mkRGBA 0.9 0.1 0.3 1.0) 0;
           mkColorState (mkRGBA 0.5 0.5 0.5 1.0) (mkRGBA 0.1 0.1 0.1 1.0) 0]
          [mkDirection 0 0 (-0.004); mkDirection 0 0 (-0.004)]
          spatialGrid0 0.

(** Two unsplit cubes 0.1 apart, well inside the boundary. *)
Definition near_pair : World :=
  mkWorld [mkPosition 0 0 (-2) false; mkPosition 0.1 0 (-2) false]
          [0; 0]%Q [0.01; 0.02]%Q
          [mkColorState (mkRGBA 0.2 0.4 0.6 1.0) (mkRGBA 0.9 0.1 0.3 1.0) 0;
           mkColorState (mkRGBA 0.5 0.5 0.5 1.0) (mkRGBA 0.1 0.1 0.1 1.0) 0]
          [mkDirection 0.005 0.003 0.002; mkDirection (-0.004) 0.004 0.003]
          spatialGrid0 0.

(** Two split cubes 0.1 apart, well inside the boundary. *)
Definition split_pair : World :=
  mkWorld [mkPosition 0 0 (-2) true; mkPosition 0.1 0 (-2) true]
          [0; 0]%Q [0.01; 0.02]%Q
          [mkColorState (mkRGBA 0.2 0.4 0.6 1.0) (mkRGBA 0.9 0.1 0.3 1.0) 0;
           mkColorState (mkRGBA 0.5 0.5 0.5 1.0) (mkRGBA 0.1 0.1 0.1 1.0) 0]
          [mkDirection 0.005 0.003 0.002; mkDirection (-0.004) 0.004 0.003]
          spatialGrid0 0.

(** One split cube about to cross the wall [x = 1.5]. *)
Definition wall_cube : World :=
  mkWorld [mkPosition 1.499 0 (-2) true] [0%Q] [0.01%Q]
          [mkColorState (mkRGBA 0.2 0.4 0.6 1.0) (mkRGBA 0.9 0.1 0.3 1.0) 0]
          [mkDirection 0.005 0.003 0.002] spatialGrid0 0.

(** ** Notions used in the statements *)

(** The three colour channels of an array lie in [0, 1]. *)
Definition channels_in_unit (c : RGBA) : Prop :=
  (0 <= red c <= 1)%Q ∧ (0 <= green c <= 1)%Q ∧ (0 <= blue c <= 1)%Q.

(** [k] successive calls of [updateColorTransition] on one colour object,
    the first one after [n] random draws. *)
Fixpoint advance (random : nat -> Q) (k : nat) (c : ColorState) (n : nat)
  : ColorState * nat :=
  match k with
  | O => (c, n)
  | S k1 =>
      let '(c1, n1) := updateColorTransition random c n in
      advance random k1 c1 n1
  end.

(** The five per-cube arrays have the same length. *)
Definition aligned (w : World) : Prop :=
  length (angles w) = length (positions w) ∧
  length (speeds w) = length (positions w) ∧
  length (colors w) = length (positions w) ∧
  length (directions w) = length (positions w).

(** The world in which the loop body of [render] calls [checkCollisions]
    for the cube [i]: [colors[i]] has made its transition step. *)
Definition after_color (random : nat -> Q) (i : nat) (color : ColorState)
  (w : World) : World :=
  let r := updateColorTransition random color (rng w) in
  set_rng (set_colors w (<[i := fst r]> (colors w))) (snd r).

(** The offset [+smallScale] or [-smallScale] of a child on one axis. *)
Definition signed_offset (positive : bool) : Q :=
  if positive then smallScale else (- smallScale)%Q.

(** The cube pushed by the iteration [i] of [splitCube] for a parent at [p]. *)
Definition child_position (p : Position) (i : Z) : Position :=
  mkPosition (x p + octant_offset i 1) (y p + octant_offset i 2)
             (z p + octant_offset i 4) true.

(** The colour object pushed by [splitCube] when [n] random numbers have
    been drawn: the parent's current colour, a random target, step 0. *)
Definition child_color (random : nat -> Q) (c : ColorState) (n : nat)
  : ColorState :=
  mkColorState (current c)
               (mkRGBA (random n) (random (n + 1)) (random (n + 2)) 1.0) 0.

(** The velocity pushed by [splitCube] when [n] random numbers have been
    drawn. *)
Definition child_direction (random : nat -> Q) (n : nat) : Direction :=
  mkDirection ((random n - 0.5) * 0.01) ((random (n + 1) - 0.5) * 0.01)
              ((random (n + 2) - 0.5) * 0.01).

(** The world after the iterations [ks] of the loop of [splitCube] for a
    parent with position [p], angle [a], speed [s] and colour object [c]. *)
Definition split_world (random : nat -> Q) (p : Position) (a s : Q)
  (c : ColorState) (ks : list Z) (w : World) : World :=
  mkWorld (positions w ++ (child_position p <$> ks))
          (angles w ++ replicate (length ks) a)
          (speeds w ++ replicate (length ks) (s * 1.2)%Q)
          (colors w ++ ((λ k, child_color random c (rng w + 6 * k)) <$> seq 0 (length ks)))
          (directions w ++
             ((λ k, child_direction random (rng w + 6 * k + 3)) <$> seq 0 (length ks)))
          (spatialGrid w) (rng w + 6 * length ks).

(** Every index stored in the grid of [w] is the index of a cube. *)
Definition grid_ok (w : World) : Prop :=
  Forall (Forall (λ j : nat, j < length (positions w))) (grid (spatialGrid w)).

(** The flattened grid index of the cube at [p]. *)
Definition cell_of (boundary : Boundary) (g : SpatialGrid) (p : Position) : Z :=
  getGridIndex boundary g (x p) (y p) (z p).

(** Two cubes are closer than [d] on every axis. *)
Definition within (d : Q) (p q : Position) : Prop :=
  (Qabs (x p - x q) < d)%Q ∧ (Qabs (y p - y q) < d)%Q ∧
  (Qabs (z p - z q) < d)%Q.

(** [j] is among the candidates that [getPotentialCollisions] returns for
    the cube [i]. *)
Definition candidate_of (boundary : Boundary) (w : World) (i j : nat) : Prop :=
  ∃ cands : list nat,
    getPotentialCollisions boundary w i = Some cands ∧ j ∈ cands.


(** The narrow-phase test of [checkCollisions] between [cube] and the cube
    number [j] of [w]. *)
Definition overlaps (w : World) (cube : Position) (j : nat) : bool :=
  from_option (collision cube) false (positions w !! j).

(** The number of candidates that overlap [cube]. *)
Definition overlap_count (w : World) (cube : Position) (cands : list nat) : nat :=
  length (List.filter (overlaps w cube) cands).

(** The number of cubes of a list that have not split. *)
Definition unsplit_count (ps : list Position) : nat :=
  length (List.filter (λ p : Position, negb (hasSplit p)) ps).

(** The operations of the program on the simulation state. *)
Inductive Action : Type :=
  | Frame                    (* one call of [render] *)
  | ColorSync                (* one click on the colour-sync button *)
  | Split (index : nat)      (* [splitCube(index)] *)
  | Collide (index : nat)    (* [checkCollisions(index)] *)
  | Rebuild.                 (* [spatialGrid.updateGrid()] *)

Definition perform (random : nat -> Q) (boundary : Boundary) (a : Action)
  (w : World) : option World :=
  match a with
  | Frame => render random boundary w
  | ColorSync => Some (colorSync random w)
  | Split index => splitCube random index w
  | Collide index => snd <$> checkCollisions random boundary index w
  | Rebuild => Some (updateGrid boundary w)
  end.

(** Every cube of [ps] that has split is still there, and split, in [ps']. *)
Definition keeps_split (ps ps' : list Position) : Prop :=
  ∀ (j : nat) (p : Position),
    ps !! j = Some p → hasSplit p = true →
    ∃ p' : Position, ps' !! j = Some p' ∧ hasSplit p' = true.

(** The bound on the iterations that the loop of [render] still makes when
    it is about to test the index [i]: the cubes still to visit plus eight
    for each of them that has not split. *)
Definition loop_measure (i : nat) (w : World) : nat :=
  length (positions w) - i + 8 * unsplit_count (drop i (positions w)).

(** ** The first variant of the collision check *)

(** The loop of the first variant of [checkCollisions] in the file (lines
    47 to 74), which tests the cube against every other cube:
    [for (let i = 0; i < positions.length; i++) if (i !== cubeIndex) ...].
    [ks] lists the indices still to test; [positions] changes only in the
    branch that returns, so the indices are those below the length read
    when the loop starts. *)
Fixpoint checkCollisions_all_loop (random : nat -> Q) (cubeIndex : nat)
  (ks : list nat) (w : World) : option (bool * World) :=
  match ks with
  | [] => Some (false, w)
  | i :: rest =>
      if decide (i ≠ cubeIndex) then
        cube ← positions w !! cubeIndex;
        other ← positions w !! i;
        if collision cube other && negb (hasSplit cube) then
          w1 ← splitCube random cubeIndex w;
          Some (true, set_positions w1 (alter mark_split cubeIndex (positions w1)))
        else if collision cube other then
          d ← directions w !! cubeIndex;
          checkCollisions_all_loop random cubeIndex rest
            (set_directions w (<[cubeIndex := reverse d]> (directions w)))
        else checkCollisions_all_loop random cubeIndex rest w
      else checkCollisions_all_loop random cubeIndex rest w
  end.

(** [checkCollisions(cubeIndex)] of the first variant. *)
Definition checkCollisions_all (random : nat -> Q) (cubeIndex : nat) (w : World)
  : option (bool * World) :=
  checkCollisions_all_loop random cubeIndex (seq 0 (length (positions w))) w.

(** The indices that the first variant tests for the cube [i] among [n]
    cubes. *)
Definition others (i n : nat) : list nat :=
  filter (λ j : nat, j ≠ i) (seq 0 n).

(** Every cube of [w] has its flattened grid index in the cell array. *)
Definition all_indexed (boundary : Boundary) (w : World) : Prop :=
  ∀ (j : nat) (p : Position),
    positions w !! j = Some p →
    in_grid (grid (spatialGrid w)) (cell_of boundary (spatialGrid w) p) = true.

(** ** Notions used in the further properties *)

(** The number of cubes plus eight for each cube that has not split. *)
Definition population_budget (w : World) : nat :=
  length (positions w) + 8 * unsplit_count (positions w).

(** The sequence has no call of [splitCube] on its own: the program calls
    it from [checkCollisions] only. *)
Definition no_bare_split (acts : list Action) : Prop :=
  Forall (λ a : Action, ∀ index : nat, a ≠ Split index) acts.

(** A well-formed colour object: channels in [0, 1], alpha 1.0, step in
    [0, 1). *)
Definition color_ok (c : ColorState) : Prop :=
  channels_in_unit (current c) ∧ channels_in_unit (target c) ∧
  alpha (current c) = 1.0%Q ∧ alpha (target c) = 1.0%Q ∧
  (0 <= step c)%Q ∧ (step c < 1)%Q.


(** The components of [d'] have the magnitudes of those of [d]. *)
Definition same_speed (d d' : Direction) : Prop :=
  (Qabs (dx d') == Qabs (dx d))%Q ∧ (Qabs (dy d') == Qabs (dy d))%Q ∧
  (Qabs (dz d') == Qabs (dz d))%Q.

(** Where the velocities [ds'] come from: the velocity of a cube of [ds] is
    its old one up to the signs, the velocity of a later cube is, up to
    the signs, one that [splitCube] drew. *)
Definition speed_origin (random : nat -> Q) (ds ds' : list Direction) : Prop :=
  length ds ≤ length ds' ∧
  ∀ (j : nat) (d' : Direction),
    ds' !! j = Some d' →
    (∃ d : Direction, ds !! j = Some d ∧ same_speed d d') ∨
    (length ds ≤ j ∧ ∃ n : nat, same_speed (child_direction random n) d').

(** No component of [d] exceeds [B] in magnitude. *)
Definition speed_within (B : Q) (d : Direction) : Prop :=
  (Qabs (dx d) <= B)%Q ∧ (Qabs (dy d) <= B)%Q ∧ (Qabs (dz d) <= B)%Q.


(** The end of the loop body of [render] for the position [p] and the
    velocity [d] of a cube: the position advances, then the three wall
    checks are made on the new position. *)
Definition glide (boundary : Boundary) (pd : Position * Direction)
  : Position * Direction :=
  let p1 := move (fst pd) (snd pd) in (p1, bounce boundary p1 (snd pd)).



(** ** Play and pause *)

(** The flag [animationPaused], the number of callbacks [render] handed to
    [requestAnimationFrame] that the browser has not run yet, and the
    arrays of the simulation. *)
Record Player : Type := mkPlayer
  { animationPaused : bool;
    requested : nat;
    scene : World }.

Section Playback.

Variable random : nat -> Q.
Variable boundary : Boundary.

(** A call of [render()]: nothing when [animationPaused] is set; otherwise
    one frame and [requestAnimationFrame(render)]. *)
Definition render_call (s : Player) : option Player :=
  if animationPaused s then Some s
  else
    w1 ← render random boundary (scene s);
    Some (mkPlayer (animationPaused s) (S (requested s)) w1).

(** The click handler of [playPauseButton]:
    [animationPaused = !animationPaused; if (!animationPaused) render();]. *)
Definition playPause (s : Player) : option Player :=
  let s1 := mkPlayer (negb (animationPaused s)) (requested s) (scene s) in
  if negb (animationPaused s1) then render_call s1 else Some s1.

(** [n] callbacks run one after the other. *)
Fixpoint run_callbacks (n : nat) (s : Player) : option Player :=
  match n with
  | O => Some s
  | S n1 => s1 ← render_call s; run_callbacks n1 s1
  end.

(** An animation frame of the browser: the callbacks requested so far are
    run, each once; what they request is for the next animation frame. *)
Definition animation_frame (s : Player) : option Player :=
  run_callbacks (requested s) (mkPlayer (animationPaused s) 0 (scene s)).

End Playback.

(** ** The reference grid *)

(** [gridVertices], [gridIndices] and [index]. *)
Record GridLines : Type := mkGridLines
  { gridVertices : list Q;
    gridIndices : list nat;
    index : nat }.

(** The body of the loop that fills [gridVertices] and [gridIndices]: a
    line parallel to the z axis, then a line parallel to the x axis. *)
Definition gridLines_body (gridSize : Z) (gridStep : Q) (i : Z) (s : GridLines)
  : GridLines :=
  let v1 := gridVertices s
            ++ [inject_Z i * gridStep; 0; - inject_Z gridSize * gridStep]%Q in
  let v2 := v1 ++ [inject_Z i * gridStep; 0; inject_Z gridSize * gridStep]%Q in
  let i1 := gridIndices s ++ [index s; index s + 1] in
  let n1 := index s + 2 in
  let v3 := v2 ++ [- inject_Z gridSize * gridStep; 0; inject_Z i * gridStep]%Q in
  let v4 := v3 ++ [inject_Z gridSize * gridStep; 0; inject_Z i * gridStep]%Q in
  let i2 := i1 ++ [n1; n1 + 1] in
  mkGridLines v4 i2 (n1 + 2).

(** The values of [i] in [for (let i = -gridSize; i <= gridSize; i++)]. *)
Definition line_range (gridSize : Z) : list Z :=
  (λ k : nat, (- gridSize + Z.of_nat k)%Z) <$> seq 0 (Z.to_nat (2 * gridSize + 1)).

(** The loop, from empty arrays and [index = 0]. *)
Definition gridLines (gridSize : Z) (gridStep : Q) : GridLines :=
  foldl (λ (s : GridLines) (i : Z), gridLines_body gridSize gridStep i s)
        (mkGridLines [] [] 0) (line_range gridSize).

(** The vertices of a flat array of coordinates whose points are in the
    plane y = 0. *)
Definition flat_points (pts : list (Q * Q)) : list Q :=
  flat_map (λ v : Q * Q, [fst v; 0%Q; snd v]) pts.

(** What the loop of the reference grid keeps: the indices are 0, 1, ... in
    order, one for each vertex, and the vertices are within [B]. *)
Definition lines_ok (B : Q) (s : GridLines) : Prop :=
  gridIndices s = seq 0 (index s) ∧
  ∃ pts : list (Q * Q),
    gridVertices s = flat_points pts ∧ length pts = index s ∧
    Forall (λ v : Q * Q, (Qabs (fst v) <= B)%Q ∧ (Qabs (snd v) <= B)%Q) pts.







(** * Properties *)

(** ** The [SpatialGrid] constructor *)

Lemma Qeq_bool_false (a b : Q) : ¬ (a == b)%Q → Qeq_bool a b = false.
Proof.
  intros H. destruct (Qeq_bool a b) eqn:E; [|done].
  apply Qeq_bool_iff in E. contradiction.
Qed.

Lemma Qeq_bool_true (a b : Q) : (a == b)%Q → Qeq_bool a b = true.
Proof. apply Qeq_bool_iff. Qed.

(** C2 (as the code has it): the constructor makes no check of its own.  A
    zero [cellSize] fails in the allocation of the cell array, and so does
    every configuration whose cell count [gridSize^3] is negative or at
    least 2^32; every other configuration is accepted.  In particular a
    zero world size with a positive [cellSize] builds a grid with
    [gridSize = 0] and no cell. *)
Theorem SpatialGrid_new_unchecked (worldSize cell : Q) :
  let gs := Qceiling (worldSize * 2 / cell) in
  ((cell == 0)%Q → SpatialGrid_new worldSize cell = None) ∧
  (¬ (cell == 0)%Q → (0 ≤ gs * gs * gs < 2 ^ 32)%Z →
     SpatialGrid_new worldSize cell =
       Some (mkSpatialGrid cell gs (replicate (Z.to_nat (gs * gs * gs)) []))) ∧
  (¬ (cell == 0)%Q → ¬ (0 ≤ gs * gs * gs < 2 ^ 32)%Z →
     SpatialGrid_new worldSize cell = None) ∧
  ((0 < cell)%Q → (worldSize == 0)%Q →
     SpatialGrid_new worldSize cell = Some (mkSpatialGrid cell 0 [])).
Proof.
  intros gs. unfold SpatialGrid_new, ceil_quot.
  split; [|split; [|split]].
  - intros H. by rewrite (Qeq_bool_true _ _ H).
  - intros H Hr. rewrite (Qeq_bool_false _ _ H). simpl. fold gs.
    destruct (Z.leb_spec 0 (gs * gs * gs)); [|lia].
    destruct (Z.ltb_spec (gs * gs * gs) (2 ^ 32)); [|lia].
    reflexivity.
  - intros H Hr. rewrite (Qeq_bool_false _ _ H). simpl. fold gs.
    destruct (Z.leb_spec 0 (gs * gs * gs)); [|done].
    destruct (Z.ltb_spec (gs * gs * gs) (2 ^ 32)); [lia|done].
  - intros Hc Hw.
    assert (Hne : ¬ (cell == 0)%Q) by (intros E; rewrite E in Hc; by apply Qlt_irrefl in Hc).
    rewrite (Qeq_bool_false _ _ Hne). simpl.
    assert (Hg : Qceiling (worldSize * 2 / cell) = 0%Z).
    { rewrite <- (Qceiling_Z 0). apply Qceiling_comp. rewrite Hw.
      unfold Qdiv. ring. }
    rewrite Hg. reflexivity.
Qed.

(** The theorem at the zero boundary and the cell size of the program. *)
Lemma SpatialGrid_new_unchecked_witness :
  (0 < 0.5)%Q ∧ (worldSize_of boundary_zero == 0)%Q ∧
  init_spatialGrid boundary_zero 0.5 = Some (mkSpatialGrid 0.5 0 []).
Proof.
  split; [reflexivity|]. split; [reflexivity|].
  apply (SpatialGrid_new_unchecked (worldSize_of boundary_zero) 0.5); reflexivity.
Defined.

(** C2 fails as stated: non-positive world extents, and a negative cell
    size, are accepted and give a grid without cells. *)
Lemma SpatialGrid_new_accepts_degenerate :
  init_spatialGrid boundary_zero 0.5 = Some (mkSpatialGrid 0.5 0 []) ∧
  init_spatialGrid boundary0 (-100) = Some (mkSpatialGrid (-100) 0 []).
Proof. split; reflexivity. Qed.

(** The configuration of the program gives 16^3 cells. *)
Lemma init_spatialGrid_program :
  init_spatialGrid boundary0 0.5 = Some spatialGrid0.
Proof. vm_compute. reflexivity. Qed.

(** ** The colour-sync handler *)

Section ColorSync.

Variable random : nat -> Q.

Lemma colorSync_loop_spec (color : RGBA) (cs : list ColorState) (n : nat) :
  colorSync_loop random color cs n =
    (imap (λ k c, mkColorState color
                    (mkRGBA (random (n + 3 * k)) (random (n + 3 * k + 1))
                            (random (n + 3 * k + 2)) 1.0)
                    (step c)) cs,
     n + 3 * length cs).
Proof.
  revert n. induction cs as [|c cs IH]; intros n; simpl.
  - f_equal. lia.
  - rewrite IH. f_equal.
    + f_equal.
      * do 2 f_equal; f_equal; lia.
      * apply imap_ext. intros k c' _. simpl.
        do 2 f_equal; f_equal; lia.
    + lia.
Qed.

(** C1 (as the code has it): the handler gives every colour object the same
    new random colour [color] as [current] (the first three draws) and a
    target of its own, made of the next three draws that no other object
    uses; [step] keeps the value it had, and no other array changes. *)
Theorem colorSync_sets_current_and_target (w : World) :
  let n := rng w in
  let color := mkRGBA (random n) (random (n + 1)) (random (n + 2)) 1.0 in
  let w1 := colorSync random w in
  length (colors w1) = length (colors w) ∧
  (∀ (i : nat) (c : ColorState),
     colors w !! i = Some c →
     colors w1 !! i =
       Some (mkColorState color
               (mkRGBA (random (n + 3 + 3 * i)) (random (n + 3 + 3 * i + 1))
                       (random (n + 3 + 3 * i + 2)) 1.0)
               (step c))) ∧
  rng w1 = n + 3 + 3 * length (colors w) ∧
  positions w1 = positions w ∧ angles w1 = angles w ∧
  speeds w1 = speeds w ∧ directions w1 = directions w.
Proof.
  intros n color w1. unfold w1, colorSync, getRandomColor.
  rewrite colorSync_loop_spec. simpl. fold n.
  split; [by rewrite length_imap|].
  split; [|done].
  intros i c Hc. rewrite list_lookup_imap, Hc. reflexivity.
Qed.

End ColorSync.

(** The theorem on the cube of [one_cube]. *)
Lemma colorSync_sets_current_and_target_witness :
  colors (colorSync random_inv one_cube) !! 0 =
    Some (mkColorState (mkRGBA (1 # 2) (1 # 3) (1 # 4) 1.0)
                       (mkRGBA (1 # 5) (1 # 6) (1 # 7) 1.0) 0.5).
Proof.
  destruct (colorSync_sets_current_and_target random_inv one_cube) as (_ & H & _).
  exact (H 0%nat _ eq_refl).
Defined.

(** C1 fails as stated: the handler does not reset [step]; the cube of
    [one_cube] keeps its 0.5. *)
Lemma colorSync_keeps_step :
  ∃ c : ColorState,
    colors (colorSync random_inv one_cube) !! 0 = Some c ∧ ¬ (step c == 0)%Q.
Proof. eexists. split; [reflexivity|]. simpl. intros H. discriminate H. Qed.

(** ** Colour transitions *)

Section ColorTransition.

Variable random : nat -> Q.

(** [Math.random()] answers in [0, 1]. *)
Hypothesis random_unit : ∀ n : nat, (0 <= random n <= 1)%Q.

Lemma blend_in_unit (cur tgt : Q) :
  (0 <= cur <= 1)%Q → (0 <= tgt <= 1)%Q → (0 <= blend cur tgt <= 1)%Q.
Proof. unfold blend. intros [? ?] [? ?]. split; lra. Qed.

Lemma getRandomColor_in_unit (n : nat) :
  channels_in_unit (fst (getRandomColor random n)).
Proof. unfold channels_in_unit, getRandomColor. simpl. auto. Qed.

Lemma updateColorTransition_in_unit (c : ColorState) (n : nat) :
  channels_in_unit (current c) → channels_in_unit (target c) →
  channels_in_unit (current (fst (updateColorTransition random c n))) ∧
  channels_in_unit (target (fst (updateColorTransition random c n))).
Proof.
  intros Hc Ht. unfold updateColorTransition.
  pose proof Hc as (Hr & Hg & Hb). pose proof Ht as (Tr & Tg & Tb).
  assert (Hcur : channels_in_unit
            (mkRGBA (blend (red (current c)) (red (target c)))
                    (blend (green (current c)) (green (target c)))
                    (blend (blue (current c)) (blue (target c)))
                    (alpha (current c)))).
  { repeat split; simpl; by apply blend_in_unit. }
  destruct (Qle_bool 1 (step c + 0.005)); simpl.
  - split; [exact Hcur|]. apply (getRandomColor_in_unit n).
  - split; [exact Hcur|exact Ht].
Qed.

Lemma advance_in_unit (k : nat) (c : ColorState) (n : nat) :
  channels_in_unit (current c) → channels_in_unit (target c) →
  channels_in_unit (current (fst (advance random k c n))) ∧
  channels_in_unit (target (fst (advance random k c n))).
Proof.
  revert c n. induction k as [|k IH]; intros c n Hc Ht; simpl; [done|].
  destruct (updateColorTransition_in_unit c n Hc Ht) as [Hc1 Ht1].
  destruct (updateColorTransition random c n) as [c1 n1]. simpl in *.
  by apply IH.
Qed.

(** C5: when the random numbers lie in [0, 1] and the current and target
    channels of a colour object start in [0, 1], the current channels are
    in [0, 1] after any number [k] of calls of [updateColorTransition],
    retargeting included. *)
Theorem color_channels_stay_in_unit (k : nat) (c : ColorState) (n : nat) :
  channels_in_unit (current c) → channels_in_unit (target c) →
  let c1 := fst (advance random k c n) in
  (0 <= red (current c1) <= 1)%Q ∧
  (0 <= green (current c1) <= 1)%Q ∧
  (0 <= blue (current c1) <= 1)%Q.
Proof. intros Hc Ht. exact (proj1 (advance_in_unit k c n Hc Ht)). Qed.

End ColorTransition.

Lemma random_inv_unit (n : nat) : (0 <= random_inv n <= 1)%Q.
Proof.
  unfold random_inv, Qle. simpl. split; lia.
Qed.

(** The theorem after 450 calls (two retargetings) on the cube of
    [one_cube]. *)
Lemma color_channels_stay_in_unit_witness :
  let c := mkColorState (mkRGBA 0.2 0.4 0.6 1.0) (mkRGBA 0.9 0.1 0.3 1.0) 0.5 in
  let c1 := fst (advance random_inv 450 c 0) in
  (0 <= red (current c1) <= 1)%Q ∧
  (0 <= green (current c1) <= 1)%Q ∧
  (0 <= blue (current c1) <= 1)%Q.
Proof.
  intros c.
  apply (color_channels_stay_in_unit random_inv random_inv_unit 450 c 0);
    vm_compute; intuition discriminate.
Defined.

(** ** Comparisons *)

Lemma Qltb_lt (a b : Q) : Qltb a b = true ↔ (a < b)%Q.
Proof.
  unfold Qltb. rewrite negb_true_iff. split.
  - intros H. apply Qnot_le_lt. intros Hle.
    apply Qle_bool_iff in Hle. congruence.
  - intros H. destruct (Qle_bool b a) eqn:E; [|done].
    apply Qle_bool_iff in E. by apply Qlt_not_le in H.
Qed.


(** ** The loop body of [render] *)

Section Frame.

Variable random : nat -> Q.
Variable boundary : Boundary.

(** What one iteration of the loop of [render] does, step by step. *)
Lemma render_body_inv (i : nat) (w w' : World) :
  render_body random boundary i w = Some w' →
  ∃ (color : ColorState) (b : bool) (w2 : World) (a s : Q)
    (p : Position) (d : Direction),
    colors w !! i = Some color ∧
    checkCollisions random boundary i (after_color random i color w) = Some (b, w2) ∧
    angles w2 !! i = Some a ∧ speeds w2 !! i = Some s ∧
    positions w2 !! i = Some p ∧ directions w2 !! i = Some d ∧
    w' = mkWorld (<[i := move p d]> (positions w2))
                 (<[i := (a + s)%Q]> (angles w2))
                 (speeds w2) (colors w2)
                 (<[i := bounce boundary (move p d) d]> (directions w2))
                 (spatialGrid w2) (rng w2).
Proof.
  unfold render_body. intros H.
  destruct (colors w !! i) as [color|] eqn:Hc; simpl in H; [|done].
  destruct (updateColorTransition random color (rng w)) as [color1 n1] eqn:Hu.
  assert (Hw1 : set_rng (set_colors w (<[i:=color1]> (colors w))) n1
                = after_color random i color w).
  { unfold after_color. by rewrite Hu. }
  rewrite Hw1 in H.
  destruct (checkCollisions random boundary i (after_color random i color w))
    as [[b w2]|] eqn:Hcc; simpl in H; [|done].
  destruct (angles w2 !! i) as [a|] eqn:Ha; simpl in H; [|done].
  destruct (speeds w2 !! i) as [s|] eqn:Hs; simpl in H; [|done].
  destruct (positions w2 !! i) as [p|] eqn:Hp; simpl in H; [|done].
  destruct (directions w2 !! i) as [d|] eqn:Hd; simpl in H; [|done].
  inversion H; subst w'.
  exists color, b, w2, a, s, p, d. by repeat split.
Qed.

(** Each boundary check leaves the components of the other two axes as
    they are. *)
Lemma bounce_x_others (p : Position) (d : Direction) :
  dy (bounce_x boundary p d) = dy d ∧ dz (bounce_x boundary p d) = dz d.
Proof. unfold bounce_x. by destruct (_ || _). Qed.

Lemma bounce_y_others (p : Position) (d : Direction) :
  dx (bounce_y boundary p d) = dx d ∧ dz (bounce_y boundary p d) = dz d.
Proof. unfold bounce_y. by destruct (_ || _). Qed.

Lemma bounce_z_others (p : Position) (d : Direction) :
  dx (bounce_z boundary p d) = dx d ∧ dy (bounce_z boundary p d) = dy d.
Proof. unfold bounce_z. by destruct (_ || _). Qed.

Lemma bounce_dx (p : Position) (d : Direction) :
  dx (bounce boundary p d) =
    if Qltb (bx boundary) (x p) || Qltb (x p) (- bx boundary)
    then (dx d * -1)%Q else dx d.
Proof.
  unfold bounce.
  rewrite (proj1 (bounce_z_others _ _)), (proj1 (bounce_y_others _ _)).
  unfold bounce_x. by destruct (_ || _).
Qed.

Lemma bounce_dy (p : Position) (d : Direction) :
  dy (bounce boundary p d) =
    if Qltb (by_ boundary) (y p) || Qltb (y p) (- by_ boundary)
    then (dy d * -1)%Q else dy d.
Proof.
  unfold bounce. rewrite (proj2 (bounce_z_others _ _)).
  unfold bounce_y at 1.
  destruct (_ || _); cbn [dy]; by rewrite (proj1 (bounce_x_others _ _)).
Qed.

Lemma bounce_dz (p : Position) (d : Direction) :
  dz (bounce boundary p d) =
    if Qltb (-0.5) (z p) || Qltb (z p) (bz boundary)
    then (dz d * -1)%Q else dz d.
Proof.
  unfold bounce. unfold bounce_z at 1.
  destruct (_ || _); cbn [dz];
    by rewrite (proj2 (bounce_y_others _ _)), (proj2 (bounce_x_others _ _)).
Qed.

Lemma outside_true (lo hi v : Q) :
  Qltb hi v || Qltb v lo = true ↔ (hi < v)%Q ∨ (v < lo)%Q.
Proof. rewrite orb_true_iff, !Qltb_lt. tauto. Qed.

(** One axis of the boundary checks: the component is negated when the
    coordinate is outside the bounds and kept otherwise. *)
Lemma bounce_axis (lo hi v c : Q) :
  let c' := if Qltb hi v || Qltb v lo then (c * -1)%Q else c in
  ((hi < v)%Q ∨ (v < lo)%Q → (c' == - c)%Q) ∧
  (¬ ((hi < v)%Q ∨ (v < lo)%Q) → c' = c).
Proof.
  simpl. destruct (Qltb hi v || Qltb v lo) eqn:E.
  - split; [intros _; ring|].
    intros Hn. apply outside_true in E. contradiction.
  - split; [|done]. intros Ho. apply outside_true in Ho. congruence.
Qed.

(** C6: in one iteration of the loop of [render] for the cube [i], let [p0]
    and [d] be its position and velocity when [checkCollisions] has
    returned.  The iteration stores the position [p = p0 + d] as it is,
    inside the bounds or not, and the velocity [d'] it stores is [d] after
    the three boundary checks.  Each check leaves the components of the
    other two axes unchanged, whatever the position; so on each axis by
    itself the component of [d'] is the negated component of [d] when [p]
    is outside the bounds of that axis, and the component of [d]
    otherwise. *)
Theorem bounce_negates_exceeded_axes (i : nat) (w w' : World) :
  render_body random boundary i w = Some w' →
  ∃ (color : ColorState) (b : bool) (w2 : World)
    (p0 p : Position) (d d' : Direction),
    colors w !! i = Some color ∧
    checkCollisions random boundary i (after_color random i color w) = Some (b, w2) ∧
    positions w2 !! i = Some p0 ∧ directions w2 !! i = Some d ∧
    p = mkPosition (x p0 + dx d) (y p0 + dy d) (z p0 + dz d) (hasSplit p0) ∧
    positions w' !! i = Some p ∧
    directions w' !! i = Some d' ∧
    d' = bounce_z boundary p (bounce_y boundary p (bounce_x boundary p d)) ∧
    (∀ v : Direction, dy (bounce_x boundary p v) = dy v ∧
                      dz (bounce_x boundary p v) = dz v) ∧
    (∀ v : Direction, dx (bounce_y boundary p v) = dx v ∧
                      dz (bounce_y boundary p v) = dz v) ∧
    (∀ v : Direction, dx (bounce_z boundary p v) = dx v ∧
                      dy (bounce_z boundary p v) = dy v) ∧
    ((bx boundary < x p)%Q ∨ (x p < - bx boundary)%Q → (dx d' == - dx d)%Q) ∧
    (¬ ((bx boundary < x p)%Q ∨ (x p < - bx boundary)%Q) → dx d' = dx d) ∧
    ((by_ boundary < y p)%Q ∨ (y p < - by_ boundary)%Q → (dy d' == - dy d)%Q) ∧
    (¬ ((by_ boundary < y p)%Q ∨ (y p < - by_ boundary)%Q) → dy d' = dy d) ∧
    ((-0.5 < z p)%Q ∨ (z p < bz boundary)%Q → (dz d' == - dz d)%Q) ∧
    (¬ ((-0.5 < z p)%Q ∨ (z p < bz boundary)%Q) → dz d' = dz d).
Proof.
  intros H.
  destruct (render_body_inv i w w' H)
    as (color & b & w2 & a & s & p0 & d & Hc & Hcc & Ha & Hs & Hp & Hd & ->).
  exists color, b, w2, p0, (move p0 d), d, (bounce boundary (move p0 d) d).
  split; [done|]. split; [done|]. split; [done|]. split; [done|].
  split; [done|].
  split. { simpl. apply list_lookup_insert_eq. by eapply lookup_lt_Some. }
  split. { simpl. apply list_lookup_insert_eq. by eapply lookup_lt_Some. }
  split; [done|].
  split; [intros v; apply bounce_x_others|].
  split; [intros v; apply bounce_y_others|].
  split; [intros v; apply bounce_z_others|].
  rewrite bounce_dx, bounce_dy, bounce_dz.
  pose proof (bounce_axis (- bx boundary) (bx boundary) (x (move p0 d)) (dx d)) as [? ?].
  pose proof (bounce_axis (- by_ boundary) (by_ boundary) (y (move p0 d)) (dy d)) as [? ?].
  pose proof (bounce_axis (bz boundary) (-0.5) (z (move p0 d)) (dz d)) as [? ?].
  by repeat split.
Qed.

End Frame.


(** The theorem on [wall_cube]: the cube ends at [x = 1.504], beyond the
    wall, with [dx] negated and [dy], [dz] unchanged. *)
Lemma bounce_negates_exceeded_axes_witness :
  ∃ (w' : World) (p : Position) (d' : Direction),
    render_body random_half boundary0 0 wall_cube = Some w' ∧
    positions w' !! 0 = Some p ∧ directions w' !! 0 = Some d' ∧
    (x p == 1.504)%Q ∧ (dx d' == -0.005)%Q ∧ dy d' = 0.003%Q ∧ dz d' = 0.002%Q.
Proof.
  assert (H : is_Some (render_body random_half boundary0 0 wall_cube))
    by (vm_compute; eauto).
  destruct H as [w' Hw'].
  destruct (bounce_negates_exceeded_axes random_half boundary0 0 wall_cube w' Hw')
    as (color & b & w2 & p0 & p & d & d' & Hc & Hcc & Hp0 & Hd & Hp & Hp' & Hd'
        & _ & _ & _ & _ & Hx1 & _ & _ & Hy2 & _ & Hz2).
  exists w', p, d'.
  vm_compute in Hcc. injection Hcc as <- <-.
  vm_compute in Hp0. injection Hp0 as <-.
  vm_compute in Hd. injection Hd as <-.
  subst p. cbn [x y z] in *.
  split; [exact Hw'|]. split; [exact Hp'|]. split; [exact Hd'|].
  split; [reflexivity|].
  split; [apply Hx1; left; reflexivity|].
  split; [apply Hy2|apply Hz2]; intros [H|H]; discriminate H.
Defined.

(** ** Subdivision *)

Section Subdivision.

Variable random : nat -> Q.

Lemma splitCube_body_spec (index : nat) (p : Position) (i : Z) (w : World)
  (a s : Q) (c : ColorState) :
  angles w !! index = Some a → speeds w !! index = Some s →
  colors w !! index = Some c →
  splitCube_body random index p i w = Some (split_world random p a s c [i] w).
Proof.
  intros Ha Hs Hc. unfold splitCube_body, split_world. simpl.
  rewrite Ha. simpl. rewrite Hs. simpl. rewrite Hc. simpl.
  rewrite !Nat.add_0_r.
  replace (rng w + 3 + 3) with (rng w + 6) by lia.
  reflexivity.
Qed.

Lemma split_world_cons (p : Position) (a s : Q) (c : ColorState) (i : Z)
  (ks : list Z) (w : World) :
  split_world random p a s c ks (split_world random p a s c [i] w) =
  split_world random p a s c (i :: ks) w.
Proof.
  unfold split_world. simpl.
  rewrite <- !(assoc_L (++)). simpl.
  f_equal.
  - do 2 f_equal. rewrite <- fmap_S_seq, <- list_fmap_compose.
    apply list_fmap_ext. intros _ k _. simpl. f_equal. lia.
  - do 2 f_equal. rewrite <- fmap_S_seq, <- list_fmap_compose.
    apply list_fmap_ext. intros _ k _. simpl. f_equal. lia.
  - lia.
Qed.

Lemma for_each_splitCube_body (index : nat) (p : Position) (ks : list Z)
  (w : World) (a s : Q) (c : ColorState) :
  angles w !! index = Some a → speeds w !! index = Some s →
  colors w !! index = Some c →
  for_each (splitCube_body random index p) ks w =
    Some (split_world random p a s c ks w).
Proof.
  revert w. induction ks as [|i ks IH]; intros w Ha Hs Hc.
  - simpl. f_equal. unfold split_world. simpl.
    rewrite !app_nil_r, Nat.add_0_r. by destruct w.
  - simpl. rewrite (splitCube_body_spec index p i w a s c Ha Hs Hc). simpl.
    rewrite IH.
    + by rewrite split_world_cons.
    + simpl. by apply lookup_app_l_Some.
    + simpl. by apply lookup_app_l_Some.
    + simpl. by apply lookup_app_l_Some.
Qed.

(** The result of [splitCube], when the parent has a slot in each array. *)
Lemma splitCube_spec (index : nat) (w : World) (p : Position) (a s : Q)
  (c : ColorState) :
  positions w !! index = Some p → angles w !! index = Some a →
  speeds w !! index = Some s → colors w !! index = Some c →
  splitCube random index w =
    Some (split_world random p a s c [0; 1; 2; 3; 4; 5; 6; 7]%Z w).
Proof.
  intros Hp Ha Hs Hc. unfold splitCube. rewrite Hp.
  exact (for_each_splitCube_body index p _ w a s c Ha Hs Hc).
Qed.

Lemma splitCube_body_inv (index : nat) (p : Position) (i : Z) (w w1 : World) :
  splitCube_body random index p i w = Some w1 →
  ∃ (a s : Q) (c : ColorState),
    angles w !! index = Some a ∧ speeds w !! index = Some s ∧
    colors w !! index = Some c.
Proof.
  unfold splitCube_body. simpl. intros H.
  destruct (angles w !! index) as [a|]; simpl in H; [|done].
  destruct (speeds w !! index) as [s|]; simpl in H; [|done].
  destruct (colors w !! index) as [c|]; simpl in H; [|done].
  by exists a, s, c.
Qed.

Lemma for_each_cons_inv {A S : Type} (body : A → S → option S) (i : A)
  (l : list A) (s s' : S) :
  for_each body (i :: l) s = Some s' →
  ∃ s1 : S, body i s = Some s1 ∧ for_each body l s1 = Some s'.
Proof.
  simpl. intros H. destruct (body i s) as [s1|]; simpl in H; [|done].
  by exists s1.
Qed.

(** A call of [splitCube] that returns has found the parent's slots. *)
Lemma splitCube_inv (index : nat) (w w' : World) :
  splitCube random index w = Some w' →
  ∃ (p : Position) (a s : Q) (c : ColorState),
    positions w !! index = Some p ∧ angles w !! index = Some a ∧
    speeds w !! index = Some s ∧ colors w !! index = Some c ∧
    w' = split_world random p a s c [0; 1; 2; 3; 4; 5; 6; 7]%Z w.
Proof.
  intros H. pose proof H as H0. unfold splitCube in H.
  destruct (positions w !! index) as [p|] eqn:Hp; [|done].
  change (for_each (splitCube_body random index p)
            [0; 1; 2; 3; 4; 5; 6; 7]%Z w = Some w') in H.
  apply for_each_cons_inv in H as (w1 & H1 & _).
  apply splitCube_body_inv in H1 as (a & s & c & Ha & Hs & Hc).
  exists p, a, s, c. repeat split; try done.
  rewrite (splitCube_spec index w p a s c Hp Ha Hs Hc) in H0. congruence.
Qed.

Lemma octant_offset_signed (i m : Z) :
  octant_offset i m = signed_offset (negb (Z.land i m =? 0)%Z).
Proof. unfold octant_offset, signed_offset. by destruct (Z.land i m =? 0)%Z. Qed.

Lemma signed_offset_inj (v : Q) (b1 b2 : bool) :
  (v + signed_offset b1)%Q = (v + signed_offset b2)%Q → b1 = b2.
Proof.
  intros H.
  assert (E : (v + signed_offset b1 == v + signed_offset b2)%Q) by (by rewrite H).
  destruct b1, b2; try done; unfold signed_offset, smallScale in E; lra.
Qed.

(** The sign pattern of the child pushed by the iteration [k]. *)
Lemma child_position_signed (p : Position) (k : Z) :
  child_position p k =
    mkPosition (x p + signed_offset (negb (Z.land k 1 =? 0)%Z))
               (y p + signed_offset (negb (Z.land k 2 =? 0)%Z))
               (z p + signed_offset (negb (Z.land k 4 =? 0)%Z)) true.
Proof. unfold child_position. by rewrite !octant_offset_signed. Qed.

Lemma lookup_octants (p : Position) (k : nat) :
  k < 8 →
  (child_position p <$> [0; 1; 2; 3; 4; 5; 6; 7]%Z) !! k =
    Some (child_position p (Z.of_nat k)).
Proof.
  intros Hk. do 8 (destruct k as [|k]; [reflexivity|]). lia.
Qed.

(** C3: for a parent [index] with position [p], angle [a], speed [s] and
    colour object [c], one call of [splitCube] appends exactly eight cubes
    and leaves the existing ones as they are.  For each of the eight sign
    patterns there is exactly one new cube at [p] plus that pattern of
    offsets [±smallScale], every new cube has [hasSplit = true], the
    parent's angle, 1.2 times the parent's speed, a copy of the parent's
    current colour with step 0 and a target made of three random draws of
    its own, and a velocity made of three further draws of its own, one per
    axis. *)
Theorem splitCube_children (index : nat) (w : World) (p : Position)
  (a s : Q) (c : ColorState) :
  aligned w →
  positions w !! index = Some p → angles w !! index = Some a →
  speeds w !! index = Some s → colors w !! index = Some c →
  let n := length (positions w) in
  let r := rng w in
  ∃ w' : World,
    splitCube random index w = Some w' ∧
    length (positions w') = n + 8 ∧
    (∀ j : nat, j < n → positions w' !! j = positions w !! j) ∧
    (∀ sx sy sz : bool,
       exists! k : nat,
         k < 8 ∧
         positions w' !! (n + k) =
           Some (mkPosition (x p + signed_offset sx) (y p + signed_offset sy)
                            (z p + signed_offset sz) true)) ∧
    (∀ k : nat, k < 8 →
       (∃ q : Position, positions w' !! (n + k) = Some q ∧ hasSplit q = true) ∧
       angles w' !! (n + k) = Some a ∧
       speeds w' !! (n + k) = Some (s * 1.2)%Q ∧
       colors w' !! (n + k) =
         Some (mkColorState (current c)
                 (mkRGBA (random (r + 6 * k)) (random (r + 6 * k + 1))
                         (random (r + 6 * k + 2)) 1.0) 0) ∧
       directions w' !! (n + k) =
         Some (mkDirection ((random (r + 6 * k + 3) - 0.5) * 0.01)
                           ((random (r + 6 * k + 4) - 0.5) * 0.01)
                           ((random (r + 6 * k + 5) - 0.5) * 0.01))).
Proof.
  intros (La & Ls & Lc & Ld) Hp Ha Hs Hc n r.
  exists (split_world random p a s c [0; 1; 2; 3; 4; 5; 6; 7]%Z w).
  split; [by apply splitCube_spec|].
  unfold split_world. cbn [positions angles speeds colors directions length].
  split; [by rewrite length_app|].
  split; [intros j Hj; by apply lookup_app_l|].
  split.
  - intros sx sy sz.
    exists ((if sx then 1 else 0) + (if sy then 2 else 0) + (if sz then 4 else 0)).
    split.
    + split; [destruct sx, sy, sz; simpl; lia|].
      rewrite lookup_app_r by (fold n; lia).
      replace (_ + _ - _) with
        ((if sx then 1 else 0) + (if sy then 2 else 0) + (if sz then 4 else 0))
        by (fold n; lia).
      by destruct sx, sy, sz.
    + intros k [Hk Hl].
      rewrite lookup_app_r in Hl by (fold n; lia).
      replace (n + k - length (positions w)) with k in Hl by (fold n; lia).
      rewrite (lookup_octants p k Hk), child_position_signed in Hl.
      apply (inj Some) in Hl.
      pose proof (f_equal x Hl) as Hx. pose proof (f_equal y Hl) as Hy.
      pose proof (f_equal z Hl) as Hz. cbn [x y z] in Hx, Hy, Hz.
      apply signed_offset_inj in Hx, Hy, Hz. subst sx sy sz.
      do 8 (destruct k as [|k]; [reflexivity|]). lia.
  - intros k Hk.
    split; [|split; [|split; [|split]]].
    + exists (child_position p (Z.of_nat k)). split; [|done].
      rewrite lookup_app_r by (fold n; lia).
      replace (n + k - length (positions w)) with k by (fold n; lia).
      by apply lookup_octants.
    + rewrite lookup_app_r by lia.
      apply lookup_replicate_2. lia.
    + rewrite lookup_app_r by lia.
      apply lookup_replicate_2. lia.
    + rewrite lookup_app_r by lia.
      replace (n + k - length (colors w)) with k by lia.
      rewrite list_lookup_fmap, lookup_seq_lt by done. reflexivity.
    + rewrite lookup_app_r by lia.
      replace (n + k - length (directions w)) with k by lia.
      rewrite list_lookup_fmap, lookup_seq_lt by done. simpl.
      unfold child_direction. fold r.
      do 2 f_equal; do 3 f_equal; lia.
Qed.

End Subdivision.


Lemma world0_aligned (random : nat → Q) : aligned (world0 random).
Proof. by repeat split. Qed.

(** The theorem on the first cube of the program's initial state. *)
Lemma splitCube_children_witness :
  ∃ w' : World,
    splitCube random_inv 0 (world0 random_inv) = Some w' ∧
    length (positions w') = 14 ∧
    positions w' !! 6 = Some (mkPosition (-0.5 + -0.1) (0.0 + -0.1) (-2.0 + -0.1) true).
Proof.
  destruct (splitCube_children random_inv 0 (world0 random_inv)
              (mkPosition (-0.5) 0.0 (-2.0) false) 0 0.01
              (mkColorState (mkRGBA (1 # 2) (1 # 3) (1 # 4) 1.0)
                            (mkRGBA (1 # 5) (1 # 6) (1 # 7) 1.0) 0)
              (world0_aligned random_inv) eq_refl eq_refl eq_refl eq_refl)
    as (w' & Hs & Hlen & _ & Hoct & _).
  exists w'. split; [exact Hs|]. split; [exact Hlen|].
  remember (positions w') as ps eqn:Eps.
  assert (H6 : positions <$> splitCube random_inv 0 (world0 random_inv) = Some ps)
    by (by rewrite Hs, Eps).
  vm_compute in H6. injection H6 as <-. reflexivity.
Defined.

(** ** The spatial grid *)

Section Grid.

Variable boundary : Boundary.

Lemma in_grid_spec (cells : list (list nat)) (gi : Z) :
  in_grid cells gi = true ↔ (0 ≤ gi < Z.of_nat (length cells))%Z.
Proof. unfold in_grid. rewrite andb_true_iff, Z.leb_le, Z.ltb_lt. tauto. Qed.

Lemma Set_add_elem (c : list nat) (idx j : nat) :
  j ∈ Set_add c idx ↔ j ∈ c ∨ j = idx.
Proof.
  unfold Set_add. case_decide.
  - split; [tauto|]. intros [?| ->]; done.
  - rewrite elem_of_app, list_elem_of_singleton. tauto.
Qed.

Lemma scan_members_elem (cubeIndex : nat) (cell cand : list nat) (j : nat) :
  j ∈ foldl (λ cand idx, if decide (idx ≠ cubeIndex) then Set_add cand idx else cand)
        cand cell
  ↔ j ∈ cand ∨ (j ∈ cell ∧ j ≠ cubeIndex).
Proof.
  revert cand. induction cell as [|idx cell IH]; intros cand; simpl.
  - split; [tauto|]. intros [?|[H _]]; [done|]. by apply elem_of_nil in H.
  - rewrite IH. case_decide.
    + rewrite Set_add_elem, elem_of_cons. split.
      * intros [[?| ->]|[? ?]]; tauto.
      * intros [?|[[->|?] ?]]; tauto.
    + rewrite elem_of_cons. split.
      * intros [?|[? ?]]; tauto.
      * intros [?|[[->|?] ?]]; [tauto| |tauto]. exfalso. tauto.
Qed.

(** The candidates after the scan of one neighbour cell. *)
Lemma scan_cell_elem (g : SpatialGrid) (cubeIndex : nat) (gi : Z)
  (cand : list nat) (ox oy oz : Z) (j : nat) :
  let ni := (gi + ox + oy * gridSize g + oz * gridSize g * gridSize g)%Z in
  j ∈ scan_cell g cubeIndex gi cand ox oy oz
  ↔ j ∈ cand ∨
    (j ≠ cubeIndex ∧ in_grid (grid g) ni = true ∧
     ∃ cell : list nat, grid g !! Z.to_nat ni = Some cell ∧ j ∈ cell).
Proof.
  intros ni. unfold scan_cell. fold ni.
  destruct (in_grid (grid g) ni) eqn:E.
  - rewrite scan_members_elem.
    apply in_grid_spec in E.
    destruct (lookup_lt_is_Some_2 (grid g) (Z.to_nat ni)) as [cell Hcell]; [lia|].
    rewrite Hcell. simpl. split.
    + intros [?|[? ?]]; [tauto|]. right. repeat split; try done. by exists cell.
    + intros [?|(? & _ & cell' & Hc' & ?)]; [tauto|]. right.
      by replace cell with cell' by congruence.
  - split; [tauto|]. intros [?|(_ & ? & _)]; done.
Qed.

Lemma foldl_elem_iff {A : Type} (f : list nat → A → list nat)
  (R : A → nat → Prop) :
  (∀ (c : list nat) (a : A) (j : nat), j ∈ f c a ↔ j ∈ c ∨ R a j) →
  ∀ (l : list A) (c : list nat) (j : nat),
    j ∈ foldl f c l ↔ j ∈ c ∨ ∃ a : A, a ∈ l ∧ R a j.
Proof.
  intros Hf l. induction l as [|a l IH]; intros c j; simpl.
  - split; [tauto|]. intros [?|(a & Ha & _)]; [done|]. by apply elem_of_nil in Ha.
  - rewrite IH, Hf. split.
    + intros [[?|?]|(a' & ? & ?)]; [tauto| |].
      * right. exists a. split; [apply elem_of_cons; tauto|done].
      * right. exists a'. split; [apply elem_of_cons; tauto|done].
    + intros [?|(a' & Ha' & ?)]; [tauto|].
      apply elem_of_cons in Ha' as [->|?]; [tauto|].
      right. by exists a'.
Qed.

(** The candidates of a cube are the other indices stored in the cells of
    the 3x3x3 block around its flattened index that lie in the cell array. *)
Lemma getPotentialCollisions_elem (w : World) (i : nat) (pos : Position) :
  positions w !! i = Some pos →
  ∃ cands : list nat,
    getPotentialCollisions boundary w i = Some cands ∧
    ∀ j : nat,
      j ∈ cands ↔
      ∃ ox oy oz : Z,
        ox ∈ offsets ∧ oy ∈ offsets ∧ oz ∈ offsets ∧
        j ≠ i ∧
        let g := spatialGrid w in
        let ni := (cell_of boundary g pos + ox + oy * gridSize g
                   + oz * gridSize g * gridSize g)%Z in
        in_grid (grid g) ni = true ∧
        ∃ cell : list nat, grid g !! Z.to_nat ni = Some cell ∧ j ∈ cell.
Proof.
  intros Hp. unfold getPotentialCollisions. rewrite Hp.
  eexists. split; [reflexivity|]. intros j.
  rewrite (foldl_elem_iff _
    (λ ox j, ∃ oy oz : Z, oy ∈ offsets ∧ oz ∈ offsets ∧ j ≠ i ∧
       let g := spatialGrid w in
       let ni := (cell_of boundary g pos + ox + oy * gridSize g
                  + oz * gridSize g * gridSize g)%Z in
       in_grid (grid g) ni = true ∧
       ∃ cell : list nat, grid g !! Z.to_nat ni = Some cell ∧ j ∈ cell)).
  - split.
    + intros [H|(ox & ? & oy & oz & ? & ? & ?)]; [by apply elem_of_nil in H|].
      by exists ox, oy, oz.
    + intros (ox & oy & oz & ? & ? & ? & ?). right.
      exists ox. split; [done|]. by exists oy, oz.
  - intros c ox j1.
    rewrite (foldl_elem_iff _
      (λ oy j, ∃ oz : Z, oz ∈ offsets ∧ j ≠ i ∧
         let g := spatialGrid w in
         let ni := (cell_of boundary g pos + ox + oy * gridSize g
                    + oz * gridSize g * gridSize g)%Z in
         in_grid (grid g) ni = true ∧
         ∃ cell : list nat, grid g !! Z.to_nat ni = Some cell ∧ j ∈ cell)).
    + split.
      * intros [?|(oy & ? & oz & ? & ?)]; [tauto|]. right. by exists oy, oz.
      * intros [?|(oy & oz & ? & ? & ?)]; [tauto|]. right.
        exists oy. split; [done|]. by exists oz.
    + intros c1 oy j2.
      rewrite (foldl_elem_iff _
        (λ oz j, j ≠ i ∧
           let g := spatialGrid w in
           let ni := (cell_of boundary g pos + ox + oy * gridSize g
                      + oz * gridSize g * gridSize g)%Z in
           in_grid (grid g) ni = true ∧
           ∃ cell : list nat, grid g !! Z.to_nat ni = Some cell ∧ j ∈ cell)).
      * split.
        -- intros [?|(oz & ? & ?)]; [tauto|]. right. by exists oz.
        -- intros [?|(oz & ? & ?)]; [tauto|]. right. by exists oz.
      * intros c2 oz j3. apply scan_cell_elem.
Qed.

End Grid.

(** ** Rebuilding the grid *)

Section GridRebuild.

Variable boundary : Boundary.

Lemma updateGrid_each_length (g : SpatialGrid) (cells : list (list nat))
  (pos : Position) (index : nat) :
  length (updateGrid_each boundary g cells pos index) = length cells.
Proof.
  unfold updateGrid_each, cell_push.
  destruct (in_grid cells _); [apply length_alter|done].
Qed.

Lemma updateGrid_loop_length (g : SpatialGrid) (ps : list Position)
  (cells : list (list nat)) (index : nat) :
  length (updateGrid_loop boundary g cells ps index) = length cells.
Proof.
  revert cells index. induction ps as [|pos ps IH]; intros cells index; simpl.
  - done.
  - by rewrite IH, updateGrid_each_length.
Qed.

(** A cell never loses a member while the cubes are inserted. *)
Lemma updateGrid_each_mono (g : SpatialGrid) (cells : list (list nat))
  (pos : Position) (index k j : nat) (cell : list nat) :
  cells !! k = Some cell → j ∈ cell →
  ∃ cell1 : list nat,
    updateGrid_each boundary g cells pos index !! k = Some cell1 ∧ j ∈ cell1.
Proof.
  intros Hk Hj. unfold updateGrid_each, cell_push.
  destruct (in_grid cells _); [|by exists cell].
  rewrite list_lookup_alter. case_decide as E.
  - subst k. rewrite Hk. simpl. eexists. split; [done|].
    apply elem_of_app. by left.
  - by exists cell.
Qed.

Lemma updateGrid_loop_mono (g : SpatialGrid) (ps : list Position)
  (cells : list (list nat)) (index k j : nat) (cell : list nat) :
  cells !! k = Some cell → j ∈ cell →
  ∃ cell1 : list nat,
    updateGrid_loop boundary g cells ps index !! k = Some cell1 ∧ j ∈ cell1.
Proof.
  revert cells index cell.
  induction ps as [|pos ps IH]; intros cells index cell Hk Hj; simpl.
  - by exists cell.
  - destruct (updateGrid_each_mono g cells pos index k j cell Hk Hj)
      as (cell1 & Hk1 & Hj1).
    by apply (IH _ _ cell1).
Qed.

(** The cube number [m] of the list is inserted in the cell of its
    flattened index when that index lies in the cell array. *)
Lemma updateGrid_loop_insert (g : SpatialGrid) (ps : list Position)
  (cells : list (list nat)) (index m : nat) (pj : Position) :
  ps !! m = Some pj →
  in_grid cells (cell_of boundary g pj) = true →
  ∃ cell : list nat,
    updateGrid_loop boundary g cells ps index
      !! Z.to_nat (cell_of boundary g pj) = Some cell ∧
    index + m ∈ cell.
Proof.
  revert cells index m.
  induction ps as [|pos ps IH]; intros cells index m Hm Hin; [done|].
  destruct m as [|m]; simpl in *.
  - injection Hm as ->.
    assert (Hpush : ∃ cell : list nat,
      updateGrid_each boundary g cells pj index
        !! Z.to_nat (cell_of boundary g pj) = Some cell ∧ index ∈ cell).
    { unfold updateGrid_each, cell_push. fold (cell_of boundary g pj).
      rewrite Hin. rewrite list_lookup_alter_eq.
      apply in_grid_spec in Hin.
      destruct (lookup_lt_is_Some_2 cells (Z.to_nat (cell_of boundary g pj)))
        as [cell Hc]; [lia|].
      rewrite Hc. simpl. eexists. split; [done|].
      apply elem_of_app. right. by apply list_elem_of_singleton. }
    destruct Hpush as (cell & Hc & Hi).
    rewrite Nat.add_0_r. by apply (updateGrid_loop_mono _ _ _ _ _ _ cell).
  - replace (index + S m) with (S index + m) by lia.
    apply IH; [done|].
    apply in_grid_spec. rewrite updateGrid_each_length.
    by apply in_grid_spec.
Qed.

Lemma updateGrid_each_ok (g : SpatialGrid) (cells : list (list nat))
  (pos : Position) (index bound : nat) :
  Forall (Forall (λ j : nat, j < bound)) cells → index < bound →
  Forall (Forall (λ j : nat, j < bound))
         (updateGrid_each boundary g cells pos index).
Proof.
  intros Hok Hi. unfold updateGrid_each, cell_push.
  destruct (in_grid cells _); [|done].
  apply Forall_alter; [done|]. intros cell _ Hcell.
  apply Forall_app. split; [done|]. by apply Forall_singleton.
Qed.

Lemma updateGrid_loop_ok (g : SpatialGrid) (ps : list Position)
  (cells : list (list nat)) (index bound : nat) :
  Forall (Forall (λ j : nat, j < bound)) cells →
  index + length ps ≤ bound →
  Forall (Forall (λ j : nat, j < bound))
         (updateGrid_loop boundary g cells ps index).
Proof.
  revert cells index.
  induction ps as [|pos ps IH]; intros cells index Hok Hb; simpl in *; [done|].
  apply IH; [|lia]. apply updateGrid_each_ok; [done|lia].
Qed.

(** After [updateGrid] the grid only holds indices of cubes. *)
Lemma updateGrid_ok (w : World) : grid_ok (updateGrid boundary w).
Proof.
  unfold grid_ok, updateGrid. simpl.
  apply updateGrid_loop_ok; [|simpl; lia].
  apply Forall_fmap, Forall_true. intros cell. simpl. constructor.
Qed.

Lemma updateGrid_grid_length (w : World) :
  length (grid (spatialGrid (updateGrid boundary w))) =
  length (grid (spatialGrid w)).
Proof.
  unfold updateGrid. simpl. by rewrite updateGrid_loop_length, length_fmap.
Qed.

(** After [updateGrid] a cube whose flattened index lies in the cell array
    is stored in the cell of that index. *)
Lemma updateGrid_indexed (w : World) (j : nat) (pj : Position) :
  positions w !! j = Some pj →
  in_grid (grid (spatialGrid w)) (cell_of boundary (spatialGrid w) pj) = true →
  ∃ cell : list nat,
    grid (spatialGrid (updateGrid boundary w))
      !! Z.to_nat (cell_of boundary (spatialGrid w) pj) = Some cell ∧
    j ∈ cell.
Proof.
  intros Hj Hin. unfold updateGrid. simpl.
  apply (updateGrid_loop_insert (spatialGrid w) (positions w) _ 0 j pj Hj).
  apply in_grid_spec. rewrite length_fmap. by apply in_grid_spec.
Qed.

(** Coordinates closer than the cell size fall in the same or in adjacent
    grid slices. *)
Lemma floor_close (c u v off : Q) :
  (0 < c)%Q → (Qabs (u - v) < c)%Q →
  (Qfloor ((v + off) / c) < Qfloor ((u + off) / c) + 2)%Z.
Proof.
  intros Hc Hd.
  apply Qabs_Qlt_condition in Hd as [Hd1 Hd2].
  set (U := ((u + off) / c)%Q). set (V := ((v + off) / c)%Q).
  assert (HU : (U * c == u + off)%Q) by (unfold U; field; lra).
  assert (HV : (V * c == v + off)%Q) by (unfold V; field; lra).
  pose proof (Qfloor_le U). pose proof (Qlt_floor U).
  pose proof (Qfloor_le V). pose proof (Qlt_floor V).
  rewrite Zlt_Qlt. rewrite !inject_Z_plus in *.
  set (a := inject_Z (Qfloor U)) in *. set (b := inject_Z (Qfloor V)) in *.
  change (inject_Z 1) with 1%Q in *. change (inject_Z 2) with 2%Q.
  nra.
Qed.

Lemma floor_offset (c u v off : Q) :
  (0 < c)%Q → (Qabs (u - v) < c)%Q →
  ∃ o : Z, o ∈ offsets ∧
    Qfloor ((v + off) / c) = (Qfloor ((u + off) / c) + o)%Z.
Proof.
  intros Hc Hd.
  pose proof (floor_close c u v off Hc Hd) as H1.
  assert (Hd' : (Qabs (v - u) < c)%Q).
  { apply Qabs_Qlt_condition in Hd as [? ?].
    apply Qabs_Qlt_condition. split; lra. }
  pose proof (floor_close c v u off Hc Hd') as H2.
  exists (Qfloor ((v + off) / c) - Qfloor ((u + off) / c))%Z.
  split; [|lia].
  assert (E : (Qfloor ((v + off) / c) - Qfloor ((u + off) / c) = -1 ∨
               Qfloor ((v + off) / c) - Qfloor ((u + off) / c) = 0 ∨
               Qfloor ((v + off) / c) - Qfloor ((u + off) / c) = 1)%Z) by lia.
  unfold offsets. rewrite !elem_of_cons. tauto.
Qed.


End GridRebuild.



(** ** Collisions *)

Section Collisions.

Variable random : nat -> Q.
Variable boundary : Boundary.

Lemma set_directions_id (w : World) : set_directions w (directions w) = w.
Proof. by destruct w. Qed.

Lemma reverse_iter_dx (k : nat) (d : Direction) :
  (dx (Nat.iter k reverse d) == (-1) ^ Z.of_nat k * dx d)%Q.
Proof.
  induction k as [|k IH].
  - simpl. ring.
  - rewrite Nat.iter_succ. unfold reverse at 1. cbn [dx].
    rewrite IH, Nat2Z.inj_succ. unfold Z.succ.
    rewrite Qpower_plus by done. simpl. ring.
Qed.

Lemma reverse_iter_dy (k : nat) (d : Direction) :
  (dy (Nat.iter k reverse d) == (-1) ^ Z.of_nat k * dy d)%Q.
Proof.
  induction k as [|k IH].
  - simpl. ring.
  - rewrite Nat.iter_succ. unfold reverse at 1. cbn [dy].
    rewrite IH, Nat2Z.inj_succ. unfold Z.succ.
    rewrite Qpower_plus by done. simpl. ring.
Qed.

Lemma reverse_iter_dz (k : nat) (d : Direction) :
  (dz (Nat.iter k reverse d) == (-1) ^ Z.of_nat k * dz d)%Q.
Proof.
  induction k as [|k IH].
  - simpl. ring.
  - rewrite Nat.iter_succ. unfold reverse at 1. cbn [dz].
    rewrite IH, Nat2Z.inj_succ. unfold Z.succ.
    rewrite Qpower_plus by done. simpl. ring.
Qed.

(** The loop of [checkCollisions] for a cube that has split: every
    candidate is scanned and each overlap reverses the velocity once. *)
Lemma checkCollisions_loop_bounce (i : nat) (cands : list nat) (w : World)
  (cube : Position) (d : Direction) :
  positions w !! i = Some cube → hasSplit cube = true →
  directions w !! i = Some d →
  Forall (λ j : nat, j < length (positions w)) cands →
  checkCollisions_loop random i cands w =
    Some (false,
          set_directions w
            (<[i := Nat.iter (overlap_count w cube cands) reverse d]>
               (directions w))).
Proof.
  intros Hp Hs. revert w d Hp.
  induction cands as [|j cands IH]; intros w d Hp Hd Hv.
  - simpl. by rewrite list_insert_id, set_directions_id.
  - apply Forall_cons in Hv as [Hj Hv].
    destruct (lookup_lt_is_Some_2 _ _ Hj) as [other Ho].
    cbn [checkCollisions_loop]. rewrite Hp. cbn [mbind option_bind].
    rewrite Ho. cbn [mbind option_bind].
    unfold overlap_count. cbn [List.filter]. unfold overlaps at 1.
    rewrite Ho. cbn [from_option].
    destruct (collision cube other).
    + rewrite Hs. cbn [negb]. rewrite Hd. cbn [mbind option_bind].
      rewrite (IH _ (reverse d)); [| done | | done].
      * cbn [length]. rewrite Nat.iter_succ_r.
        unfold set_directions. cbn [positions angles speeds colors directions
                                    spatialGrid rng].
        by rewrite list_insert_insert_eq.
      * cbn [directions set_directions]. apply list_lookup_insert_eq.
        by eapply lookup_lt_Some.
    + by apply IH.
Qed.

(** The loop of [checkCollisions] for a cube that has not split: the first
    overlap splits it and ends the loop. *)
Lemma checkCollisions_loop_split (i : nat) (cands : list nat) (w : World)
  (cube : Position) :
  positions w !! i = Some cube → hasSplit cube = false →
  Forall (λ j : nat, j < length (positions w)) cands →
  checkCollisions_loop random i cands w =
    if (overlap_count w cube cands =? 0)%nat then Some (false, w)
    else w1 ← splitCube random i w;
         Some (true, set_positions w1 (alter mark_split i (positions w1))).
Proof.
  intros Hp Hs Hv.
  induction cands as [|j cands IH].
  - done.
  - apply Forall_cons in Hv as [Hj Hv].
    destruct (lookup_lt_is_Some_2 _ _ Hj) as [other Ho].
    cbn [checkCollisions_loop]. rewrite Hp. cbn [mbind option_bind].
    rewrite Ho. cbn [mbind option_bind].
    unfold overlap_count. cbn [List.filter]. unfold overlaps at 1.
    rewrite Ho. cbn [from_option].
    destruct (collision cube other).
    + rewrite Hs. done.
    + by apply IH.
Qed.

(** What a call of the loop of [checkCollisions] that returns has done:
    either no split, and then only [directions[i]] can differ, or the split
    of a cube that had not split. *)
Lemma checkCollisions_loop_inv (i : nat) (cands : list nat) (w : World)
  (b : bool) (w2 : World) :
  checkCollisions_loop random i cands w = Some (b, w2) →
  (b = false ∧ positions w2 = positions w ∧ angles w2 = angles w ∧
   speeds w2 = speeds w ∧ colors w2 = colors w ∧
   spatialGrid w2 = spatialGrid w ∧ rng w2 = rng w ∧
   length (directions w2) = length (directions w) ∧
   ∀ j : nat, j ≠ i → directions w2 !! j = directions w !! j)
  ∨
  (b = true ∧
   ∃ (cube : Position) (w1 : World),
     positions w !! i = Some cube ∧ hasSplit cube = false ∧
     splitCube random i w = Some w1 ∧
     w2 = set_positions w1 (alter mark_split i (positions w1))).
Proof.
  revert w. induction cands as [|j cands IH]; intros w H.
  - injection H as <- <-. left. by repeat split.
  - cbn [checkCollisions_loop] in H.
    destruct (positions w !! i) as [cube|] eqn:Hp; [|done].
    cbn [mbind option_bind] in H.
    destruct (positions w !! j) as [other|] eqn:Ho; [|done].
    cbn [mbind option_bind] in H.
    destruct (collision cube other); [|apply IH in H; by rewrite Hp in H].
    destruct (hasSplit cube) eqn:Hs; cbn [negb] in H.
    + destruct (directions w !! i) as [d|] eqn:Hd; [|done].
      cbn [mbind option_bind] in H.
      apply IH in H as [H|H].
      * left. destruct H as (-> & H1 & H2 & H3 & H4 & H5 & H6 & H7 & H8).
        cbn [positions angles speeds colors directions spatialGrid rng
             set_directions] in *.
        repeat split; try done.
        -- by rewrite H7, length_insert.
        -- intros k Hk. rewrite (H8 k Hk). by apply list_lookup_insert_ne.
      * exfalso. destruct H as (_ & cube' & w1 & Hp' & Hs' & _).
        cbn [positions set_directions] in Hp'. congruence.
    + destruct (splitCube random i w) as [w1|] eqn:Hsp; [|done].
      cbn [mbind option_bind] in H. injection H as <- <-.
      right. split; [done|]. by exists cube, w1.
Qed.

Lemma checkCollisions_inv (i : nat) (w : World) (b : bool) (w2 : World) :
  checkCollisions random boundary i w = Some (b, w2) →
  (b = false ∧ positions w2 = positions w ∧ angles w2 = angles w ∧
   speeds w2 = speeds w ∧ colors w2 = colors w ∧
   spatialGrid w2 = spatialGrid w ∧ rng w2 = rng w ∧
   length (directions w2) = length (directions w) ∧
   ∀ j : nat, j ≠ i → directions w2 !! j = directions w !! j)
  ∨
  (b = true ∧
   ∃ (cube : Position) (w1 : World),
     positions w !! i = Some cube ∧ hasSplit cube = false ∧
     splitCube random i w = Some w1 ∧
     w2 = set_positions w1 (alter mark_split i (positions w1))).
Proof.
  unfold checkCollisions. intros H.
  destruct (getPotentialCollisions boundary w i) as [cands|]; [|done].
  by apply (checkCollisions_loop_inv i cands).
Qed.

(** The candidates are indices of cubes when the grid only holds such. *)
Lemma getPotentialCollisions_valid (w : World) (i : nat) (pos : Position) :
  grid_ok w → positions w !! i = Some pos →
  ∃ cands : list nat,
    getPotentialCollisions boundary w i = Some cands ∧
    Forall (λ j : nat, j < length (positions w)) cands.
Proof.
  intros Hok Hp.
  destruct (getPotentialCollisions_elem boundary w i pos Hp)
    as (cands & Hc & Helem).
  exists cands. split; [done|].
  apply Forall_forall. intros j Hj.
  apply Helem in Hj as (ox & oy & oz & _ & _ & _ & _ & _ & cell & Hcell & Hin).
  unfold grid_ok in Hok.
  pose proof (Forall_lookup_1 _ _ _ _ Hok Hcell) as Hcell_ok.
  by apply (proj1 (Forall_forall _ _) Hcell_ok).
Qed.

(** C8: for a cube [i] with [hasSplit = true], in a world whose grid only
    holds indices of cubes, one call of [checkCollisions] returns [false];
    with [k] the number of candidates that overlap the cube (every
    candidate is tested), each component of its velocity after the call is
    [(-1)^k] times the component before, and nothing else changes. *)
Theorem checkCollisions_bounces (i : nat) (w : World) (cube : Position)
  (d : Direction) :
  grid_ok w →
  positions w !! i = Some cube → hasSplit cube = true →
  directions w !! i = Some d →
  ∃ (cands : list nat) (w' : World) (d' : Direction),
    getPotentialCollisions boundary w i = Some cands ∧
    checkCollisions random boundary i w = Some (false, w') ∧
    directions w' !! i = Some d' ∧
    let k := overlap_count w cube cands in
    (dx d' == (-1) ^ Z.of_nat k * dx d)%Q ∧
    (dy d' == (-1) ^ Z.of_nat k * dy d)%Q ∧
    (dz d' == (-1) ^ Z.of_nat k * dz d)%Q ∧
    positions w' = positions w ∧ angles w' = angles w ∧
    speeds w' = speeds w ∧ colors w' = colors w ∧
    (∀ j : nat, j ≠ i → directions w' !! j = directions w !! j).
Proof.
  intros Hok Hp Hs Hd.
  destruct (getPotentialCollisions_valid w i cube Hok Hp) as (cands & Hc & Hv).
  exists cands. eexists. exists (Nat.iter (overlap_count w cube cands) reverse d).
  split; [done|]. split.
  { unfold checkCollisions. rewrite Hc. cbn [mbind option_bind].
    by apply checkCollisions_loop_bounce. }
  cbn [positions angles speeds colors directions set_directions].
  split. { apply list_lookup_insert_eq. by eapply lookup_lt_Some. }
  split; [apply reverse_iter_dx|]. split; [apply reverse_iter_dy|].
  split; [apply reverse_iter_dz|].
  repeat split; try done.
  intros j Hj. by apply list_lookup_insert_ne.
Qed.

End Collisions.


(** The theorem on the first cube of [split_pair]: one overlapping
    candidate, the velocity is reversed once. *)
Lemma checkCollisions_bounces_witness :
  ∃ (w' : World) (d' : Direction),
    checkCollisions random_half boundary0 0 (updateGrid boundary0 split_pair)
      = Some (false, w') ∧
    directions w' !! 0 = Some d' ∧
    (dx d' == -0.005)%Q ∧ (dy d' == -0.003)%Q ∧ (dz d' == -0.002)%Q.
Proof.
  destruct (checkCollisions_bounces random_half boundary0 0
              (updateGrid boundary0 split_pair)
              (mkPosition 0 0 (-2) true) (mkDirection 0.005 0.003 0.002)
              (updateGrid_ok boundary0 split_pair) eq_refl eq_refl eq_refl)
    as (cands & w' & d' & Hc & Hcc & Hd & Hx & Hy & Hz & _).
  exists w', d'. split; [exact Hcc|]. split; [exact Hd|].
  vm_compute in Hc. injection Hc as <-.
  split; [rewrite Hx; reflexivity|].
  split; [rewrite Hy; reflexivity|rewrite Hz; reflexivity].
Defined.

(** ** One iteration of the loop of [render] *)

Section FrameBody.

Variable random : nat -> Q.
Variable boundary : Boundary.

Lemma insert_alter_same {A : Type} (f : A → A) (l : list A) (i : nat) (v : A) :
  <[i := v]> (alter f i l) = <[i := v]> l.
Proof.
  revert i. induction l as [|a l IH]; intros [|i]; simpl; try done.
  f_equal. apply IH.
Qed.

(** The converse of [render_body_inv]. *)
Lemma render_body_intro (i : nat) (w : World) (color : ColorState) (b : bool)
  (w2 : World) (a s : Q) (p : Position) (d : Direction) :
  colors w !! i = Some color →
  checkCollisions random boundary i (after_color random i color w) = Some (b, w2) →
  angles w2 !! i = Some a → speeds w2 !! i = Some s →
  positions w2 !! i = Some p → directions w2 !! i = Some d →
  render_body random boundary i w =
    Some (mkWorld (<[i := move p d]> (positions w2))
                  (<[i := (a + s)%Q]> (angles w2))
                  (speeds w2) (colors w2)
                  (<[i := bounce boundary (move p d) d]> (directions w2))
                  (spatialGrid w2) (rng w2)).
Proof.
  intros Hc Hcc Ha Hs Hp Hd. unfold render_body. rewrite Hc.
  cbn [mbind option_bind].
  unfold after_color in Hcc.
  destruct (updateColorTransition random color (rng w)) as [color1 n1].
  cbn [fst snd] in Hcc. rewrite Hcc. cbn [mbind option_bind].
  rewrite Ha. cbn [mbind option_bind]. rewrite Hs. cbn [mbind option_bind].
  cbn [positions directions set_angles]. rewrite Hp. cbn [mbind option_bind].
  rewrite Hd. reflexivity.
Qed.

(** The effect of one iteration on the arrays: the cube [i] is rewritten,
    either nothing or eight split cubes are appended, and in the second
    case the cube [i] had not split and now has. *)
Lemma render_body_shape (i : nat) (w w' : World) :
  render_body random boundary i w = Some w' →
  ∃ (p p' : Position) (kids : list Position),
    positions w !! i = Some p ∧
    positions w' = <[i := p']> (positions w) ++ kids ∧
    Forall (λ q : Position, hasSplit q = true) kids ∧
    ((kids = [] ∧ hasSplit p' = hasSplit p) ∨
     (length kids = 8 ∧ hasSplit p = false ∧ hasSplit p' = true)) ∧
    length (angles w') = length (angles w) + length kids ∧
    length (speeds w') = length (speeds w) + length kids ∧
    length (colors w') = length (colors w) + length kids ∧
    length (directions w') = length (directions w) + length kids ∧
    spatialGrid w' = spatialGrid w.
Proof.
  intros H.
  destruct (render_body_inv random boundary i w w' H)
    as (color & b & w2 & a & s & p2 & d & Hc & Hcc & Ha & Hs & Hp & Hd & ->).
  cbn [positions angles speeds colors directions spatialGrid].
  rewrite !length_insert.
  apply checkCollisions_inv in Hcc as [Hcc|Hcc].
  - destruct Hcc as (-> & H1 & H2 & H3 & H4 & H5 & H6 & H7 & H8).
    unfold after_color in *.
    cbn [positions angles speeds colors directions spatialGrid rng
         set_rng set_colors] in *.
    rewrite H1 in Hp. rewrite H1, H2, H3, H4, H5, H7, length_insert.
    exists p2, (move p2 d), []. rewrite app_nil_r, !Nat.add_0_r.
    repeat split; try done. by left.
  - destruct Hcc as (-> & cube & w1 & Hcube & Hsplit & Hsp & ->).
    apply splitCube_inv in Hsp as (p0 & a0 & s0 & c0 & Hp0 & Ha0 & Hs0 & Hc0 & ->).
    unfold after_color in *.
    cbn [positions angles speeds colors directions spatialGrid rng
         set_rng set_colors set_positions split_world] in *.
    assert (cube = p0) as -> by congruence.
    assert (Hi : i < length (positions w)) by (by eapply lookup_lt_Some).
    rewrite list_lookup_alter_eq, lookup_app_l, Hp0 in Hp by done.
    injection Hp as <-.
    exists p0, (move (mark_split p0) d),
           (child_position p0 <$> [0; 1; 2; 3; 4; 5; 6; 7]%Z).
    rewrite insert_alter_same, insert_app_l by done.
    rewrite !length_app, length_replicate, !length_fmap, length_seq, length_insert.
    repeat split; try done.
    + apply Forall_fmap, Forall_true. by intros k.
    + right. by repeat split.
Qed.

Lemma render_body_aligned (i : nat) (w w' : World) :
  aligned w → render_body random boundary i w = Some w' → aligned w'.
Proof.
  intros (Ha & Hs & Hc & Hd) H.
  destruct (render_body_shape i w w' H)
    as (p & p' & kids & _ & Hp & _ & _ & Ha' & Hs' & Hc' & Hd' & _).
  unfold aligned. rewrite Hp, length_app, length_insert. lia.
Qed.

Lemma after_color_grid_ok (i : nat) (color : ColorState) (w : World) :
  grid_ok w → grid_ok (after_color random i color w).
Proof. done. Qed.

(** One iteration returns when the arrays are aligned, the grid holds
    indices of cubes, and [i] is the index of a cube. *)
Lemma render_body_total (i : nat) (w : World) :
  aligned w → grid_ok w → i < length (positions w) →
  ∃ w' : World, render_body random boundary i w = Some w'.
Proof.
  intros (La & Ls & Lc & Ld) Hok Hi.
  destruct (lookup_lt_is_Some_2 (colors w) i) as [color Hc]; [lia|].
  destruct (lookup_lt_is_Some_2 (positions w) i) as [p Hp]; [lia|].
  destruct (lookup_lt_is_Some_2 (angles w) i) as [a Ha]; [lia|].
  destruct (lookup_lt_is_Some_2 (speeds w) i) as [s Hs]; [lia|].
  destruct (lookup_lt_is_Some_2 (directions w) i) as [d Hd]; [lia|].
  set (w1 := after_color random i color w).
  assert (Hcc : ∃ (b : bool) (w2 : World),
            checkCollisions random boundary i w1 = Some (b, w2)).
  { destruct (getPotentialCollisions_valid boundary w1 i p)
      as (cands & Hcands & Hv); [done|done|].
    unfold checkCollisions. rewrite Hcands. cbn [mbind option_bind].
    destruct (hasSplit p) eqn:Hsplit.
    - rewrite (checkCollisions_loop_bounce random i cands w1 p d); by eauto.
    - rewrite (checkCollisions_loop_split random i cands w1 p) by done.
      destruct (overlap_count w1 p cands =? 0)%nat; [by eauto|].
      destruct (lookup_lt_is_Some_2 (colors w1) i) as [c1 Hc1].
      { unfold w1, after_color. cbn [colors set_rng set_colors].
        rewrite length_insert. lia. }
      rewrite (splitCube_spec random i w1 p a s c1) by done.
      cbn [mbind option_bind]. by eauto. }
  destruct Hcc as (b & w2 & Hcc).
  assert (Hlen : length (positions w) ≤ length (positions w2) ∧
                 length (angles w) ≤ length (angles w2) ∧
                 length (speeds w) ≤ length (speeds w2) ∧
                 length (directions w) ≤ length (directions w2)).
  { pose proof Hcc as Hinv. apply checkCollisions_inv in Hinv as [Hinv|Hinv].
    - destruct Hinv as (_ & H1 & H2 & H3 & _ & _ & _ & H7 & _).
      rewrite H1, H2, H3, H7. unfold w1, after_color.
      cbn [positions angles speeds directions set_rng set_colors]. lia.
    - destruct Hinv as (_ & cube & w3 & _ & _ & Hsp & ->).
      apply splitCube_inv in Hsp as (p0 & a0 & s0 & c0 & _ & _ & _ & _ & ->).
      unfold w1, after_color.
      cbn [positions angles speeds directions set_rng set_colors set_positions
           split_world].
      rewrite length_alter, !length_app. lia. }
  destruct Hlen as (Lp2 & La2 & Ls2 & Ld2).
  destruct (lookup_lt_is_Some_2 (positions w2) i) as [p2 Hp2]; [lia|].
  destruct (lookup_lt_is_Some_2 (angles w2) i) as [a2 Ha2]; [lia|].
  destruct (lookup_lt_is_Some_2 (speeds w2) i) as [s2 Hs2]; [lia|].
  destruct (lookup_lt_is_Some_2 (directions w2) i) as [d2 Hd2]; [lia|].
  eexists. by apply (render_body_intro i w color b w2 a2 s2 p2 d2).
Qed.

End FrameBody.

(** ** The loop of [render] *)

Section FrameLoop.

Variable random : nat -> Q.
Variable boundary : Boundary.

Lemma unsplit_count_app (l1 l2 : list Position) :
  unsplit_count (l1 ++ l2) = unsplit_count l1 + unsplit_count l2.
Proof. unfold unsplit_count. by rewrite List.filter_app, length_app. Qed.

Lemma unsplit_count_split (kids : list Position) :
  Forall (λ q : Position, hasSplit q = true) kids → unsplit_count kids = 0.
Proof.
  unfold unsplit_count. induction 1 as [|q kids Hq _ IH]; [done|].
  simpl. by rewrite Hq.
Qed.

Lemma unsplit_count_cons (p : Position) (ps : list Position) :
  unsplit_count (p :: ps) =
    (if hasSplit p then 0 else 1) + unsplit_count ps.
Proof. unfold unsplit_count. simpl. by destruct (hasSplit p). Qed.

Lemma unsplit_count_le (ps : list Position) : unsplit_count ps ≤ length ps.
Proof. unfold unsplit_count. apply List.filter_length_le. Qed.

Lemma grid_ok_grow (w w' : World) :
  grid_ok w → spatialGrid w' = spatialGrid w →
  length (positions w) ≤ length (positions w') → grid_ok w'.
Proof.
  unfold grid_ok. intros Hok -> Hlen.
  eapply Forall_impl; [exact Hok|]. intros cell Hcell.
  eapply Forall_impl; [exact Hcell|]. intros j Hj. simpl in *. lia.
Qed.

Lemma render_body_length (i : nat) (w w' : World) :
  render_body random boundary i w = Some w' →
  i < length (positions w) ∧ length (positions w) ≤ length (positions w').
Proof.
  intros H.
  destruct (render_body_shape random boundary i w w' H)
    as (p & p' & kids & Hp & -> & _).
  split; [by eapply lookup_lt_Some|].
  rewrite length_app, length_insert. lia.
Qed.

(** Every iteration brings the loop closer to its end: a split appends
    eight cubes, but they have split and the cube that split them has too. *)
Lemma render_body_measure (i : nat) (w w' : World) :
  render_body random boundary i w = Some w' →
  loop_measure (S i) w' < loop_measure i w.
Proof.
  intros H.
  destruct (render_body_shape random boundary i w w' H)
    as (p & p' & kids & Hp & Hps & Hkids & Hcase & _).
  pose proof (lookup_lt_Some _ _ _ Hp) as Hi.
  unfold loop_measure.
  assert (Hdrop : drop (S i) (positions w') = drop (S i) (positions w) ++ kids).
  { rewrite Hps, drop_app_le by (rewrite length_insert; lia).
    by rewrite drop_insert_lt by lia. }
  rewrite Hdrop, unsplit_count_app, (unsplit_count_split kids Hkids).
  rewrite (drop_S _ _ _ Hp), unsplit_count_cons.
  rewrite Hps, length_app, length_insert.
  destruct Hcase as [[-> _]|(Hk & Hs & _)].
  - cbn [length]. destruct (hasSplit p); lia.
  - rewrite Hs. lia.
Qed.

(** The result of the loop does not depend on the iterations it is granted
    once they reach that bound: the loop never stops for want of them. *)
Lemma render_loop_fuel (fuel1 : nat) :
  ∀ (fuel2 i : nat) (w : World),
    loop_measure i w ≤ fuel1 → loop_measure i w ≤ fuel2 →
    render_loop random boundary fuel1 i w = render_loop random boundary fuel2 i w.
Proof.
  induction fuel1 as [|fuel1 IH]; intros fuel2 i w H1 H2.
  - destruct fuel2 as [|fuel2]; [done|]. simpl.
    destruct (Nat.ltb_spec i (length (positions w))); [|done].
    unfold loop_measure in H1. lia.
  - destruct fuel2 as [|fuel2].
    + simpl. destruct (Nat.ltb_spec i (length (positions w))); [|done].
      unfold loop_measure in H2. lia.
    + simpl. destruct (i <? length (positions w))%nat; [|done].
      destruct (render_body random boundary i w) as [w1|] eqn:Hb; [|done].
      cbn [mbind option_bind].
      pose proof (render_body_measure i w w1 Hb).
      apply IH; lia.
Qed.

(** The loop returns when it is given that many iterations. *)
Lemma render_loop_total (fuel : nat) :
  ∀ (i : nat) (w : World),
    aligned w → grid_ok w → i ≤ length (positions w) →
    loop_measure i w ≤ fuel →
    ∃ w' : World, render_loop random boundary fuel i w = Some w'.
Proof.
  induction fuel as [|fuel IH]; intros i w Hal Hok Hi Hfuel.
  - exists w. simpl. destruct (Nat.ltb_spec i (length (positions w))); [|done].
    unfold loop_measure in Hfuel. lia.
  - simpl. destruct (Nat.ltb_spec i (length (positions w))) as [Hlt|Hge];
      [|by exists w].
    destruct (render_body_total random boundary i w Hal Hok Hlt) as [w1 Hb].
    rewrite Hb. cbn [mbind option_bind].
    pose proof (render_body_measure i w w1 Hb).
    pose proof (render_body_length i w w1 Hb) as [_ Hlen].
    destruct (render_body_shape random boundary i w w1 Hb)
      as (_ & _ & _ & _ & _ & _ & _ & _ & _ & _ & _ & Hg).
    apply IH.
    + by eapply render_body_aligned.
    + by apply (grid_ok_grow w).
    + lia.
    + lia.
Qed.

Lemma render_fuel_enough (w : World) : loop_measure 0 w ≤ render_fuel w.
Proof.
  unfold loop_measure, render_fuel. rewrite drop_0.
  pose proof (unsplit_count_le (positions w)). lia.
Qed.

(** [render] returns on every world with aligned arrays. *)
Lemma render_total (w : World) :
  aligned w → ∃ w' : World, render random boundary w = Some w'.
Proof.
  intros Hal. unfold render. apply render_loop_total.
  - exact Hal.
  - apply updateGrid_ok.
  - lia.
  - apply render_fuel_enough.
Qed.







End FrameLoop.


Lemma near_pair_aligned : aligned near_pair.
Proof. by repeat split. Qed.


(** ** Invariants of the operations *)

Section Invariants.

Variable random : nat -> Q.
Variable boundary : Boundary.

Lemma keeps_split_refl (ps : list Position) : keeps_split ps ps.
Proof. intros j p Hp Hs. by exists p. Qed.

Lemma keeps_split_trans (ps1 ps2 ps3 : list Position) :
  keeps_split ps1 ps2 → keeps_split ps2 ps3 → keeps_split ps1 ps3.
Proof.
  intros H12 H23 j p Hp Hs.
  destruct (H12 j p Hp Hs) as (p2 & Hp2 & Hs2). by apply (H23 j p2).
Qed.

Lemma keeps_split_app (ps kids : list Position) : keeps_split ps (ps ++ kids).
Proof.
  intros j p Hp Hs. exists p. split; [|done]. by apply lookup_app_l_Some.
Qed.

Lemma keeps_split_alter (ps : list Position) (i : nat) :
  keeps_split ps (alter mark_split i ps).
Proof.
  intros j p Hp Hs. destruct (decide (i = j)) as [->|Hne].
  - exists (mark_split p). split; [|done].
    by rewrite list_lookup_alter_eq, Hp.
  - exists p. split; [|done]. by rewrite list_lookup_alter_ne.
Qed.

Lemma splitCube_keeps_split (index : nat) (w w' : World) :
  splitCube random index w = Some w' →
  keeps_split (positions w) (positions w').
Proof.
  intros H. apply splitCube_inv in H as (p & a & s & c & _ & _ & _ & _ & ->).
  apply keeps_split_app.
Qed.

Lemma checkCollisions_keeps_split (i : nat) (w : World) (b : bool) (w' : World) :
  checkCollisions random boundary i w = Some (b, w') →
  keeps_split (positions w) (positions w').
Proof.
  intros H. apply checkCollisions_inv in H as [H|H].
  - destruct H as (_ & -> & _). apply keeps_split_refl.
  - destruct H as (_ & cube & w1 & _ & _ & Hsp & ->).
    cbn [positions set_positions].
    eapply keeps_split_trans; [by eapply splitCube_keeps_split|].
    apply keeps_split_alter.
Qed.

Lemma render_body_keeps_split (i : nat) (w w' : World) :
  render_body random boundary i w = Some w' →
  keeps_split (positions w) (positions w').
Proof.
  intros H.
  destruct (render_body_shape random boundary i w w' H)
    as (p & p' & kids & Hp & -> & _ & Hcase & _).
  eapply keeps_split_trans; [|apply keeps_split_app].
  intros j q Hq Hs. destruct (decide (i = j)) as [->|Hne].
  - exists p'. split.
    + apply list_lookup_insert_eq. by eapply lookup_lt_Some.
    + assert (q = p) as -> by congruence.
      destruct Hcase as [[_ ->]|(_ & _ & ->)]; done.
  - exists q. split; [|done]. by rewrite list_lookup_insert_ne.
Qed.

Lemma render_loop_keeps_split (fuel : nat) :
  ∀ (i : nat) (w w' : World),
    render_loop random boundary fuel i w = Some w' →
    keeps_split (positions w) (positions w').
Proof.
  induction fuel as [|fuel IH]; intros i w w' H; simpl in H;
    destruct (i <? length (positions w))%nat; try done.
  - injection H as <-. apply keeps_split_refl.
  - destruct (render_body random boundary i w) as [w1|] eqn:Hb; [|done].
    cbn [mbind option_bind] in H.
    eapply keeps_split_trans; [by eapply render_body_keeps_split|].
    by eapply IH.
  - injection H as <-. apply keeps_split_refl.
Qed.

Lemma render_loop_aligned (fuel : nat) :
  ∀ (i : nat) (w w' : World),
    aligned w → render_loop random boundary fuel i w = Some w' → aligned w'.
Proof.
  induction fuel as [|fuel IH]; intros i w w' Hal H; simpl in H;
    destruct (i <? length (positions w))%nat; try done.
  - by injection H as <-.
  - destruct (render_body random boundary i w) as [w1|] eqn:Hb; [|done].
    cbn [mbind option_bind] in H.
    eapply IH; [|exact H]. by eapply render_body_aligned.
  - by injection H as <-.
Qed.

(** One call of [splitCube] appends eight elements to each array. *)
Lemma splitCube_lengths (index : nat) (w w' : World) :
  splitCube random index w = Some w' →
  length (positions w') = length (positions w) + 8 ∧
  length (angles w') = length (angles w) + 8 ∧
  length (speeds w') = length (speeds w) + 8 ∧
  length (colors w') = length (colors w) + 8 ∧
  length (directions w') = length (directions w) + 8.
Proof.
  intros H. apply splitCube_inv in H as (p & a & s & c & _ & _ & _ & _ & ->).
  cbn [positions angles speeds colors directions split_world].
  by rewrite !length_app, length_replicate, !length_fmap, length_seq.
Qed.

Lemma colorSync_colors_length (w : World) :
  length (colors (colorSync random w)) = length (colors w).
Proof.
  unfold colorSync, getRandomColor. rewrite colorSync_loop_spec.
  cbn [colors set_rng set_colors]. by rewrite length_imap.
Qed.

Lemma colorSync_positions (w : World) :
  positions (colorSync random w) = positions w.
Proof. unfold colorSync, getRandomColor. by rewrite colorSync_loop_spec. Qed.

Lemma perform_keeps_split (a : Action) (w w' : World) :
  perform random boundary a w = Some w' →
  keeps_split (positions w) (positions w').
Proof.
  destruct a as [| |index|index|]; cbn [perform]; intros H.
  - unfold render in H. by apply render_loop_keeps_split in H.
  - injection H as <-. rewrite colorSync_positions. apply keeps_split_refl.
  - by eapply splitCube_keeps_split.
  - destruct (checkCollisions random boundary index w) as [[b w2]|] eqn:Hcc;
      [|done].
    injection H as <-. by eapply checkCollisions_keeps_split.
  - injection H as <-. apply keeps_split_refl.
Qed.

Lemma perform_aligned (a : Action) (w w' : World) :
  aligned w → perform random boundary a w = Some w' → aligned w'.
Proof.
  intros Hal. pose proof Hal as (La & Ls & Lc & Ld).
  destruct a as [| |index|index|]; cbn [perform]; intros H.
  - unfold render in H. by eapply render_loop_aligned in H.
  - injection H as <-. unfold aligned.
    rewrite colorSync_colors_length, colorSync_positions.
    unfold colorSync, getRandomColor. rewrite colorSync_loop_spec. done.
  - apply splitCube_lengths in H as (H1 & H2 & H3 & H4 & H5).
    unfold aligned. lia.
  - destruct (checkCollisions random boundary index w) as [[b w2]|] eqn:Hcc;
      [|done].
    injection H as <-. apply checkCollisions_inv in Hcc as [Hcc|Hcc].
    + destruct Hcc as (_ & H1 & H2 & H3 & H4 & _ & _ & H7 & _).
      unfold aligned. by rewrite H1, H2, H3, H4, H7.
    + destruct Hcc as (_ & cube & w1 & _ & _ & Hsp & ->).
      apply splitCube_lengths in Hsp as (H1 & H2 & H3 & H4 & H5).
      unfold aligned. cbn [positions angles speeds colors directions set_positions].
      rewrite length_alter. lia.
  - by injection H as <-.
Qed.

Lemma render_loop_grid (fuel : nat) :
  ∀ (i : nat) (w w' : World),
    render_loop random boundary fuel i w = Some w' →
    spatialGrid w' = spatialGrid w ∧
    length (positions w) ≤ length (positions w').
Proof.
  induction fuel as [|fuel IH]; intros i w w' H; simpl in H;
    destruct (i <? length (positions w))%nat; try done.
  - by injection H as <-.
  - destruct (render_body random boundary i w) as [w1|] eqn:Hb; [|done].
    cbn [mbind option_bind] in H.
    destruct (render_body_shape random boundary i w w1 Hb)
      as (p & p' & kids & _ & Hps & _ & _ & _ & _ & _ & _ & Hg).
    destruct (IH (S i) w1 w' H) as [Hg' Hlen].
    split; [congruence|].
    rewrite Hps, length_app, length_insert in Hlen. lia.
  - by injection H as <-.
Qed.

(** The grid only holds indices of cubes in every state that the program
    reaches from one where it does (its initial grid is empty). *)
Lemma perform_grid_ok (a : Action) (w w' : World) :
  grid_ok w → perform random boundary a w = Some w' → grid_ok w'.
Proof.
  intros Hok. destruct a as [| |index|index|]; cbn [perform]; intros H.
  - unfold render in H. apply render_loop_grid in H as [Hg Hlen].
    eapply (grid_ok_grow (updateGrid boundary w)); [apply updateGrid_ok|done|done].
  - injection H as <-. apply (grid_ok_grow w); [done| |].
    + unfold colorSync, getRandomColor. by rewrite colorSync_loop_spec.
    + by rewrite colorSync_positions.
  - apply splitCube_inv in H as (p & a & s & c & _ & _ & _ & _ & ->).
    apply (grid_ok_grow w); [done|done|].
    cbn [positions split_world]. rewrite length_app. lia.
  - destruct (checkCollisions random boundary index w) as [[b w2]|] eqn:Hcc;
      [|done].
    injection H as <-. apply checkCollisions_inv in Hcc as [Hcc|Hcc].
    + destruct Hcc as (_ & H1 & _ & _ & _ & H5 & _).
      apply (grid_ok_grow w); [done|done|]. by rewrite H1.
    + destruct Hcc as (_ & cube & w1 & _ & _ & Hsp & ->).
      apply splitCube_inv in Hsp as (p & a & s & c & _ & _ & _ & _ & ->).
      apply (grid_ok_grow w); [done|done|].
      cbn [positions set_positions split_world].
      rewrite length_alter, length_app. lia.
  - injection H as <-. apply updateGrid_ok.
Qed.

Lemma world0_grid_ok (rnd : nat → Q) : grid_ok (world0 rnd).
Proof.
  unfold grid_ok. cbn [world0 spatialGrid spatialGrid0 grid].
  apply Forall_replicate. constructor.
Qed.

(** C4: [hasSplit] is monotonic.  Whatever operations of the program run, a
    cube whose flag is true keeps a true flag; [checkCollisions] on such a
    cube returns [false] and leaves [positions] as it is, however many
    candidates overlap; and a call of [checkCollisions] that splits was made
    on a cube whose flag was false, leaves that flag true, and appends eight
    cubes whose flags are true. *)
Theorem hasSplit_is_monotonic :
  (∀ (acts : list Action) (w w' : World) (j : nat) (p : Position),
     for_each (perform random boundary) acts w = Some w' →
     positions w !! j = Some p → hasSplit p = true →
     ∃ p' : Position, positions w' !! j = Some p' ∧ hasSplit p' = true) ∧
  (∀ (i : nat) (w : World) (cube : Position) (b : bool) (w' : World),
     positions w !! i = Some cube → hasSplit cube = true →
     checkCollisions random boundary i w = Some (b, w') →
     b = false ∧ positions w' = positions w) ∧
  (∀ (i : nat) (w w' : World),
     checkCollisions random boundary i w = Some (true, w') →
     (∃ cube : Position, positions w !! i = Some cube ∧ hasSplit cube = false) ∧
     (∃ cube' : Position, positions w' !! i = Some cube' ∧ hasSplit cube' = true) ∧
     length (positions w') = length (positions w) + 8 ∧
     (∀ (j : nat) (q : Position),
        length (positions w) ≤ j → positions w' !! j = Some q →
        hasSplit q = true)).
Proof.
  split; [|split].
  - intros acts. induction acts as [|a acts IH]; intros w w' j p H Hp Hs.
    + injection H as <-. by exists p.
    + apply for_each_cons_inv in H as (w1 & Ha & H).
      destruct (perform_keeps_split a w w1 Ha j p Hp Hs) as (p1 & Hp1 & Hs1).
      by apply (IH w1 w' j p1).
  - intros i w cube b w' Hp Hs H.
    apply checkCollisions_inv in H as [H|H].
    + by destruct H as (-> & -> & _).
    + destruct H as (_ & cube' & _ & Hp' & Hs' & _). congruence.
  - intros i w w' H.
    apply checkCollisions_inv in H as [H|H]; [by destruct H|].
    destruct H as (_ & cube & w1 & Hp & Hs & Hsp & ->).
    pose proof (splitCube_lengths i w w1 Hsp) as (Hlen & _).
    pose proof (splitCube_keeps_split i w w1 Hsp) as Hk.
    cbn [positions set_positions].
    split; [by exists cube|]. split.
    + assert (Hi : i < length (positions w1)).
      { apply lookup_lt_Some in Hp. lia. }
      destruct (lookup_lt_is_Some_2 _ _ Hi) as [q Hq].
      exists (mark_split q). split; [|done].
      by rewrite list_lookup_alter_eq, Hq.
    + split; [by rewrite length_alter|].
      intros j q Hj Hq. apply lookup_lt_Some in Hp.
      apply splitCube_inv in Hsp as (p0 & a0 & s0 & c0 & _ & _ & _ & _ & ->).
      cbn [positions split_world] in Hq.
      rewrite list_lookup_alter_ne, lookup_app_r in Hq by lia.
      apply list_elem_of_lookup_2, list_elem_of_fmap in Hq as (k & -> & _).
      done.
Qed.

(** C10: one call of [splitCube] appends exactly eight elements to each of
    the five arrays, and arrays of equal lengths have equal lengths after
    any sequence of operations of the program, so that every index of a
    cube is an index of each of them. *)
Theorem split_preserves_alignment :
  (∀ (index : nat) (w w' : World),
     splitCube random index w = Some w' →
     length (positions w') = length (positions w) + 8 ∧
     length (angles w') = length (angles w) + 8 ∧
     length (speeds w') = length (speeds w) + 8 ∧
     length (colors w') = length (colors w) + 8 ∧
     length (directions w') = length (directions w) + 8) ∧
  (∀ (acts : list Action) (w w' : World),
     aligned w →
     for_each (perform random boundary) acts w = Some w' →
     length (angles w') = length (positions w') ∧
     length (speeds w') = length (positions w') ∧
     length (colors w') = length (positions w') ∧
     length (directions w') = length (positions w') ∧
     ∀ i : nat, i < length (positions w') →
       is_Some (positions w' !! i) ∧ is_Some (angles w' !! i) ∧
       is_Some (speeds w' !! i) ∧ is_Some (colors w' !! i) ∧
       is_Some (directions w' !! i)).
Proof.
  split; [apply splitCube_lengths|].
  intros acts w w' Hal H.
  assert (Hal' : aligned w').
  { revert w Hal H. induction acts as [|a acts IH]; intros w Hal H.
    - by injection H as <-.
    - apply for_each_cons_inv in H as (w1 & Ha & H).
      apply (IH w1); [|done]. by eapply perform_aligned. }
  destruct Hal' as (La & Ls & Lc & Ld).
  repeat split; try done; apply lookup_lt_is_Some_2; lia.
Qed.

End Invariants.


Lemma split_pair_aligned : aligned split_pair.
Proof. by repeat split. Qed.

(** The first part of the theorem on the first cube of [split_pair],
    through a frame, a colour sync, a call of [splitCube], a call of
    [checkCollisions], a rebuild of the grid and another frame. *)
Lemma hasSplit_is_monotonic_witness :
  ∃ (w' : World) (p' : Position),
    for_each (perform random_half boundary0)
             [Frame; ColorSync; Split 1; Collide 0; Rebuild; Frame] split_pair
      = Some w' ∧
    positions w' !! 0 = Some p' ∧ hasSplit p' = true.
Proof.
  assert (H : is_Some (for_each (perform random_half boundary0)
                         [Frame; ColorSync; Split 1; Collide 0; Rebuild; Frame]
                         split_pair))
    by (vm_compute; eauto).
  destruct H as [w' Hw'].
  destruct (proj1 (hasSplit_is_monotonic random_half boundary0)
              _ split_pair w' 0 (mkPosition 0 0 (-2) true) Hw' eq_refl eq_refl)
    as (p' & Hp' & Hs').
  exists w', p'. split; [exact Hw'|]. split; [exact Hp'|exact Hs'].
Defined.

(** The second part of the theorem on [near_pair], through a frame (in
    which both cubes split), a colour sync and another frame. *)
Lemma split_preserves_alignment_witness :
  ∃ w' : World,
    for_each (perform random_half boundary0) [Frame; ColorSync; Frame] near_pair
      = Some w' ∧
    length (positions w') = 18 ∧ length (angles w') = 18 ∧
    length (speeds w') = 18 ∧ length (colors w') = 18 ∧
    length (directions w') = 18.
Proof.
  assert (H : is_Some (for_each (perform random_half boundary0)
                         [Frame; ColorSync; Frame] near_pair))
    by (vm_compute; eauto).
  destruct H as [w' Hw'].
  destruct (proj2 (split_preserves_alignment random_half boundary0)
              _ near_pair w' near_pair_aligned Hw')
    as (Ha & Hs & Hc & Hd & _).
  exists w'. split; [exact Hw'|].
  assert (Hp : (λ v, length (positions v))
                 <$> for_each (perform random_half boundary0)
                       [Frame; ColorSync; Frame] near_pair
               = Some (length (positions w'))) by (by rewrite Hw').
  vm_compute in Hp. injection Hp as Hp.
  change (18 = length (positions w')) in Hp.
  rewrite Ha, Hs, Hc, Hd, <- Hp. by repeat split.
Defined.

(** * Further properties of the program *)

(** ** The content of the grid *)

Section GridContent.

Variable boundary : Boundary.

Lemma Set_add_NoDup (c : list nat) (idx : nat) :
  NoDup c → NoDup (Set_add c idx).
Proof.
  intros Hc. unfold Set_add. case_decide as Hin; [done|].
  apply NoDup_app. split; [done|]. split; [|apply NoDup_singleton].
  intros j Hj Hj'. apply list_elem_of_singleton in Hj'. by subst.
Qed.

Lemma foldl_NoDup {A : Type} (f : list nat → A → list nat) :
  (∀ (c : list nat) (a : A), NoDup c → NoDup (f c a)) →
  ∀ (l : list A) (c : list nat), NoDup c → NoDup (foldl f c l).
Proof.
  intros Hf l. induction l as [|a l IH]; intros c Hc; simpl; [done|].
  by apply IH, Hf.
Qed.

Lemma scan_cell_NoDup (g : SpatialGrid) (cubeIndex : nat) (gi : Z)
  (cand : list nat) (ox oy oz : Z) :
  NoDup cand → NoDup (scan_cell g cubeIndex gi cand ox oy oz).
Proof.
  intros Hc. unfold scan_cell. destruct (in_grid _ _); [|done].
  apply foldl_NoDup; [|done].
  intros c idx Hc'. case_decide; [by apply Set_add_NoDup|done].
Qed.

Lemma getPotentialCollisions_NoDup (w : World) (i : nat) (cands : list nat) :
  getPotentialCollisions boundary w i = Some cands → NoDup cands.
Proof.
  unfold getPotentialCollisions.
  destruct (positions w !! i) as [pos|]; [|done].
  cbn [mbind option_bind]. intros H. apply (inj Some) in H. rewrite <- H.
  apply foldl_NoDup; [|constructor]. intros c1 ox Hc1.
  apply foldl_NoDup; [|done]. intros c2 oy Hc2.
  apply foldl_NoDup; [|done]. intros c3 oz Hc3.
  by apply scan_cell_NoDup.
Qed.

(** X1: the candidates returned for the cube [i] are exactly the other
    indices stored in the cells of the 3x3x3 block around its flattened
    index that lie in the cell array; each is listed once, [i] itself is
    never listed, and all of them are indices of cubes when the grid only
    holds such. *)
Theorem candidates_are_block_members (w : World) (i : nat) (pos : Position) :
  positions w !! i = Some pos →
  ∃ cands : list nat,
    getPotentialCollisions boundary w i = Some cands ∧
    NoDup cands ∧ (i ∉ cands) ∧
    (∀ j : nat,
       j ∈ cands ↔
       j ≠ i ∧
       ∃ ox oy oz : Z,
         ox ∈ offsets ∧ oy ∈ offsets ∧ oz ∈ offsets ∧
         let g := spatialGrid w in
         let ni := (cell_of boundary g pos + ox + oy * gridSize g
                    + oz * gridSize g * gridSize g)%Z in
         in_grid (grid g) ni = true ∧
         ∃ cell : list nat, grid g !! Z.to_nat ni = Some cell ∧ j ∈ cell) ∧
    (grid_ok w → Forall (λ j : nat, j < length (positions w)) cands).
Proof.
  intros Hp.
  destruct (getPotentialCollisions_elem boundary w i pos Hp)
    as (cands & Hc & Helem).
  exists cands. split; [done|].
  assert (Hiff : ∀ j : nat,
       j ∈ cands ↔
       j ≠ i ∧
       ∃ ox oy oz : Z,
         ox ∈ offsets ∧ oy ∈ offsets ∧ oz ∈ offsets ∧
         let g := spatialGrid w in
         let ni := (cell_of boundary g pos + ox + oy * gridSize g
                    + oz * gridSize g * gridSize g)%Z in
         in_grid (grid g) ni = true ∧
         ∃ cell : list nat, grid g !! Z.to_nat ni = Some cell ∧ j ∈ cell).
  { intros j. rewrite Helem. split.
    - intros (ox & oy & oz & ? & ? & ? & ? & ?). split; [done|].
      by exists ox, oy, oz.
    - intros (? & ox & oy & oz & ? & ? & ? & ?). by exists ox, oy, oz. }
  split; [|split; [|split; [exact Hiff|]]].
  - by eapply getPotentialCollisions_NoDup.
  - intros Hin. apply Hiff in Hin as [Hne _]. done.
  - intros Hok.
    destruct (getPotentialCollisions_valid boundary w i pos Hok Hp)
      as (cands' & Hc' & Hv).
    by replace cands with cands' by congruence.
Qed.

Lemma in_grid_length (cells cells' : list (list nat)) (gi : Z) :
  length cells' = length cells → in_grid cells' gi = in_grid cells gi.
Proof. unfold in_grid. by intros ->. Qed.

(** What the insertion loop of [updateGrid] adds to the cell [k]: the
    indices of the cubes whose flattened index is [k], each once. *)
Lemma updateGrid_loop_cell (g : SpatialGrid) (ps : list Position) :
  ∀ (cells : list (list nat)) (index k : nat) (c0 : list nat),
    cells !! k = Some c0 →
    ∃ extra : list nat,
      updateGrid_loop boundary g cells ps index !! k = Some (c0 ++ extra) ∧
      NoDup extra ∧
      ∀ j : nat,
        j ∈ extra ↔
        ∃ (m : nat) (p : Position),
          j = index + m ∧ ps !! m = Some p ∧
          in_grid cells (cell_of boundary g p) = true ∧
          Z.to_nat (cell_of boundary g p) = k.
Proof.
  induction ps as [|pos ps IH]; intros cells index k c0 Hk.
  - exists []. rewrite app_nil_r. split; [done|]. split; [constructor|].
    intros j. split; [intros H; by apply elem_of_nil in H|].
    by intros (m & p & _ & H & _).
  - cbn [updateGrid_loop].
    set (cells1 := updateGrid_each boundary g cells pos index).
    assert (Hlen1 : length cells1 = length cells)
      by apply updateGrid_each_length.
    assert (H1 : ∃ e1 : list nat,
              cells1 !! k = Some (c0 ++ e1) ∧
              (e1 = [index] ∧ in_grid cells (cell_of boundary g pos) = true ∧
               Z.to_nat (cell_of boundary g pos) = k
               ∨ e1 = [] ∧ ¬ (in_grid cells (cell_of boundary g pos) = true ∧
                              Z.to_nat (cell_of boundary g pos) = k))).
    { unfold cells1, updateGrid_each, cell_push.
      fold (cell_of boundary g pos).
      destruct (in_grid cells (cell_of boundary g pos)) eqn:Hin.
      - destruct (decide (Z.to_nat (cell_of boundary g pos) = k)) as [E|E].
        + exists [index]. rewrite E, list_lookup_alter_eq, Hk. split; [done|].
          by left.
        + exists []. rewrite list_lookup_alter_ne, Hk, app_nil_r by done.
          split; [done|]. right. split; [done|]. tauto.
      - exists []. rewrite Hk, app_nil_r. split; [done|]. right.
        split; [done|]. intros [? _]. done. }
    destruct H1 as (e1 & Hk1 & He1).
    destruct (IH cells1 (S index) k (c0 ++ e1) Hk1) as (e2 & Hres & Hnd & Hiff).
    exists (e1 ++ e2). rewrite Hres, <- (assoc_L (++)). split; [done|].
    assert (Hge : ∀ j : nat, j ∈ e2 → S index ≤ j).
    { intros j Hj. apply Hiff in Hj as (m & p & -> & _). lia. }
    split.
    + apply NoDup_app. split; [|split; [|done]].
      * destruct He1 as [(-> & _)|(-> & _)]; [apply NoDup_singleton|constructor].
      * intros j Hj1 Hj2. apply Hge in Hj2.
        destruct He1 as [(-> & _)|(-> & _)].
        -- apply list_elem_of_singleton in Hj1. lia.
        -- by apply elem_of_nil in Hj1.
    + intros j. rewrite elem_of_app, Hiff. split.
      * intros [Hj|(m & p & -> & Hm & Hin & Hc)].
        -- destruct He1 as [(-> & Hin & Hc)|(-> & _)];
             [|by apply elem_of_nil in Hj].
           apply list_elem_of_singleton in Hj as ->.
           exists 0, pos. by rewrite Nat.add_0_r.
        -- exists (S m), p. rewrite (in_grid_length cells cells1) in Hin by done.
           repeat split; try done. lia.
      * intros ([|m] & p & -> & Hm & Hin & Hc).
        -- left. cbn in Hm. injection Hm as ->.
           destruct He1 as [(-> & _)|(_ & Hn)]; [|tauto].
           rewrite Nat.add_0_r. by apply list_elem_of_singleton.
        -- right. exists m, p. cbn in Hm.
           rewrite (in_grid_length cells cells1) by done.
           repeat split; try done. lia.
Qed.

(** X2: after [updateGrid] the cell array has its length of before, and
    each cell [k] holds, once each, exactly the indices of the cubes whose
    flattened grid index is [k]; a cube is stored in at most one cell, and
    a cube whose index lies outside the cell array in none.  What the cells
    held before the call plays no part. *)
Theorem updateGrid_cells (w : World) :
  let g := spatialGrid w in
  let w' := updateGrid boundary w in
  length (grid (spatialGrid w')) = length (grid g) ∧
  (∀ (k : nat) (cell : list nat),
     grid (spatialGrid w') !! k = Some cell →
     NoDup cell ∧
     ∀ j : nat,
       j ∈ cell ↔
       ∃ p : Position,
         positions w !! j = Some p ∧
         in_grid (grid g) (cell_of boundary g p) = true ∧
         Z.to_nat (cell_of boundary g p) = k) ∧
  (∀ (k k' j : nat) (cell cell' : list nat),
     grid (spatialGrid w') !! k = Some cell →
     grid (spatialGrid w') !! k' = Some cell' →
     j ∈ cell → j ∈ cell' → k = k') ∧
  (∀ (j : nat) (p : Position),
     positions w !! j = Some p →
     in_grid (grid g) (cell_of boundary g p) = false →
     ∀ (k : nat) (cell : list nat),
       grid (spatialGrid w') !! k = Some cell → j ∉ cell).
Proof.
  intros g w'.
  assert (Hcell : ∀ (k : nat) (cell : list nat),
     grid (spatialGrid w') !! k = Some cell →
     NoDup cell ∧
     ∀ j : nat,
       j ∈ cell ↔
       ∃ p : Position,
         positions w !! j = Some p ∧
         in_grid (grid g) (cell_of boundary g p) = true ∧
         Z.to_nat (cell_of boundary g p) = k).
  { intros k cell Hk. unfold w', updateGrid in Hk.
    cbn [spatialGrid set_spatialGrid grid] in Hk. fold g in Hk.
    assert (Hk0 : ((λ _ : list nat, @nil nat) <$> grid g) !! k = Some []).
    { rewrite list_lookup_fmap.
      apply lookup_lt_Some in Hk.
      rewrite updateGrid_loop_length, length_fmap in Hk.
      destruct (lookup_lt_is_Some_2 (grid g) k Hk) as [c Hc]. by rewrite Hc. }
    destruct (updateGrid_loop_cell g (positions w) _ 0 k [] Hk0)
      as (extra & Hres & Hnd & Hiff).
    rewrite Hres in Hk. injection Hk as <-. split; [done|].
    intros j. rewrite Hiff. split.
    - intros (m & p & -> & Hm & Hin & Hc). exists p.
      rewrite (in_grid_length (grid g)) in Hin by (by rewrite length_fmap).
      by repeat split.
    - intros (p & Hj & Hin & Hc). exists j, p.
      rewrite (in_grid_length (grid g)) by (by rewrite length_fmap).
      by repeat split. }
  split; [apply updateGrid_grid_length|]. split; [exact Hcell|]. split.
  - intros k k' j cell cell' Hk Hk' Hj Hj'.
    apply (Hcell k cell Hk) in Hj as (p & Hp & _ & <-).
    apply (Hcell k' cell' Hk') in Hj' as (p' & Hp' & _ & <-).
    congruence.
  - intros j p Hp Hout k cell Hk Hj.
    apply (Hcell k cell Hk) in Hj as (p' & Hp' & Hin & _).
    congruence.
Qed.

Lemma updateGrid_loop_ext (g1 g2 : SpatialGrid) (ps : list Position) :
  cellSize g1 = cellSize g2 → gridSize g1 = gridSize g2 →
  ∀ (cells : list (list nat)) (index : nat),
    updateGrid_loop boundary g1 cells ps index =
    updateGrid_loop boundary g2 cells ps index.
Proof.
  intros Hc Hg. induction ps as [|pos ps IH]; intros cells index; [done|].
  cbn [updateGrid_loop]. rewrite IH. f_equal.
  unfold updateGrid_each, getGridIndex. by rewrite Hc, Hg.
Qed.

(** X3: [updateGrid] rebuilds the cells from nothing: its result depends on
    the grid it starts from only through the number of cells, so that a
    second rebuild changes nothing. *)
Theorem updateGrid_forgets_cells (w : World) (cells : list (list nat)) :
  length cells = length (grid (spatialGrid w)) →
  updateGrid boundary
    (set_spatialGrid w
       (mkSpatialGrid (cellSize (spatialGrid w)) (gridSize (spatialGrid w)) cells))
  = updateGrid boundary w ∧
  updateGrid boundary (updateGrid boundary w) = updateGrid boundary w.
Proof.
  intros Hlen.
  assert (Hgen : ∀ cells' : list (list nat),
    length cells' = length (grid (spatialGrid w)) →
    updateGrid boundary
      (set_spatialGrid w
         (mkSpatialGrid (cellSize (spatialGrid w)) (gridSize (spatialGrid w)) cells'))
    = updateGrid boundary w).
  { intros cells' Hl. unfold updateGrid.
    cbn [spatialGrid set_spatialGrid grid cellSize gridSize positions angles
         speeds colors directions rng].
    rewrite (const_fmap _ cells' []) by done.
    rewrite (const_fmap _ (grid (spatialGrid w)) []) by done.
    rewrite Hl. do 2 f_equal. by apply updateGrid_loop_ext. }
  split; [by apply Hgen|].
  rewrite <- (Hgen (grid (spatialGrid (updateGrid boundary w)))) at 2
    by apply updateGrid_grid_length.
  reflexivity.
Qed.

End GridContent.

(** The first theorem on the first cube of [near_pair] after a rebuild: its
    only candidate is the second cube. *)
Lemma candidates_are_block_members_witness :
  ∃ cands : list nat,
    getPotentialCollisions boundary0 (updateGrid boundary0 near_pair) 0
      = Some cands ∧
    NoDup cands ∧ (0 ∉ cands).
Proof.
  destruct (candidates_are_block_members boundary0
              (updateGrid boundary0 near_pair) 0 (mkPosition 0 0 (-2) false)
              eq_refl) as (cands & Hc & Hnd & Hni & _).
  exists cands. split; [exact Hc|]. split; [exact Hnd|exact Hni].
Defined.

(** The second theorem on [near_pair]: both cubes are in the cell 1059. *)
Lemma updateGrid_cells_witness :
  ∃ cell : list nat,
    grid (spatialGrid (updateGrid boundary0 near_pair)) !! 1059 = Some cell ∧
    NoDup cell ∧ 1 ∈ cell.
Proof.
  assert (H : is_Some (grid (spatialGrid (updateGrid boundary0 near_pair))
                         !! 1059)) by (vm_compute; eauto).
  destruct H as [cell Hcell].
  destruct (updateGrid_cells boundary0 near_pair) as (_ & Hc & _).
  destruct (Hc 1059 cell Hcell) as [Hnd Hiff].
  exists cell. split; [exact Hcell|]. split; [exact Hnd|].
  apply Hiff. exists (mkPosition 0.1 0 (-2) false).
  split; [reflexivity|]. split; reflexivity.
Defined.

(** The third theorem on [near_pair] with the cells of a grid rebuilt for
    [far_pair]. *)
Lemma updateGrid_forgets_cells_witness :
  updateGrid boundary0
    (set_spatialGrid near_pair
       (mkSpatialGrid (cellSize (spatialGrid near_pair))
          (gridSize (spatialGrid near_pair))
          (grid (spatialGrid (updateGrid boundary0 far_pair)))))
  = updateGrid boundary0 near_pair.
Proof.
  exact (proj1 (updateGrid_forgets_cells boundary0 near_pair
                  (grid (spatialGrid (updateGrid boundary0 far_pair)))
                  (updateGrid_grid_length boundary0 far_pair))).
Defined.

(** ** The two variants of the collision check *)

Section Variants.

Variable random : nat -> Q.
Variable boundary : Boundary.

(** The first variant runs the loop of the second over all other cubes. *)
Lemma checkCollisions_all_loop_filter (i : nat) (ks : list nat) :
  ∀ w : World,
    checkCollisions_all_loop random i ks w =
    checkCollisions_loop random i (filter (λ j : nat, j ≠ i) ks) w.
Proof.
  induction ks as [|k ks IH]; intros w; [done|].
  cbn [checkCollisions_all_loop]. rewrite filter_cons.
  case_decide as Hk; [|apply IH].
  cbn [checkCollisions_loop].
  destruct (positions w !! i) as [cube|]; [|done]. cbn [mbind option_bind].
  destruct (positions w !! k) as [other|]; [|done]. cbn [mbind option_bind].
  destruct (collision cube other), (hasSplit cube); cbn [andb negb];
    try done; try apply IH.
  destruct (directions w !! i) as [d|]; [|done]. cbn [mbind option_bind].
  apply IH.
Qed.

Lemma checkCollisions_all_others (i : nat) (w : World) :
  checkCollisions_all random i w =
  checkCollisions_loop random i (others i (length (positions w))) w.
Proof. apply checkCollisions_all_loop_filter. Qed.

Lemma others_elem (i n j : nat) : j ∈ others i n ↔ j ≠ i ∧ j < n.
Proof.
  unfold others. rewrite list_elem_of_filter, elem_of_seq. lia.
Qed.

Lemma others_NoDup (i n : nat) : NoDup (others i n).
Proof. apply NoDup_filter, NoDup_seq. Qed.

Lemma others_valid (i : nat) (w : World) :
  Forall (λ j : nat, j < length (positions w)) (others i (length (positions w))).
Proof. apply Forall_forall. intros j Hj. by apply others_elem in Hj as [_ ?]. Qed.

Lemma overlap_count_filter_elem (w : World) (cube : Position) (l : list nat)
  (j : nat) :
  j ∈ List.filter (overlaps w cube) l ↔ j ∈ l ∧ overlaps w cube j = true.
Proof. by rewrite !list_elem_of_In, filter_In. Qed.

(** Counting the overlaps over two duplicate-free lists. *)
Lemma overlap_count_le (w : World) (cube : Position) (l1 l2 : list nat) :
  NoDup l1 →
  (∀ j : nat, j ∈ l1 → overlaps w cube j = true → j ∈ l2) →
  overlap_count w cube l1 ≤ overlap_count w cube l2.
Proof.
  intros Hnd Hsub. unfold overlap_count.
  apply NoDup_incl_length; [by apply List.NoDup_filter, NoDup_ListNoDup|].
  intros j Hj. apply list_elem_of_In, overlap_count_filter_elem in Hj as [Hj Ho].
  apply list_elem_of_In, overlap_count_filter_elem. split; [by apply Hsub|done].
Qed.

Lemma overlap_count_eq (w : World) (cube : Position) (l1 l2 : list nat) :
  NoDup l1 → NoDup l2 →
  (∀ j : nat, j ∈ l1 → overlaps w cube j = true → j ∈ l2) →
  (∀ j : nat, j ∈ l2 → overlaps w cube j = true → j ∈ l1) →
  overlap_count w cube l1 = overlap_count w cube l2.
Proof.
  intros H1 H2 H12 H21.
  pose proof (overlap_count_le w cube l1 l2 H1 H12).
  pose proof (overlap_count_le w cube l2 l1 H2 H21). lia.
Qed.

Lemma collision_within (a b : Position) :
  collision a b = true ↔ within cubeSize a b.
Proof.
  unfold collision, within. rewrite !andb_true_iff, !Qltb_lt. tauto.
Qed.

(** After a rebuild, a cube whose flattened index lies in the cell array is
    a candidate of every other cube closer than the cell size. *)
Lemma indexed_cube_is_candidate (w : World) (a b : nat) (pa pb : Position) :
  positions w !! a = Some pa → positions w !! b = Some pb → a ≠ b →
  (0 < cellSize (spatialGrid w))%Q → within (cellSize (spatialGrid w)) pa pb →
  in_grid (grid (spatialGrid w)) (cell_of boundary (spatialGrid w) pb) = true →
  candidate_of boundary (updateGrid boundary w) a b.
Proof.
  intros Ha Hb Hab Hc (Hx & Hy & Hz) Hin. set (g := spatialGrid w) in *.
  destruct (getPotentialCollisions_elem boundary (updateGrid boundary w) a pa)
    as (cands & Hcands & Helem); [done|].
  exists cands. split; [done|]. apply Helem.
  destruct (floor_offset _ _ _ (bx boundary) Hc Hx) as (ox & Hox & Ex).
  destruct (floor_offset _ _ _ (by_ boundary) Hc Hy) as (oy & Hoy & Ey).
  destruct (floor_offset _ _ _ (Qabs (bz boundary)) Hc Hz) as (oz & Hoz & Ez).
  exists ox, oy, oz.
  split; [done|]. split; [done|]. split; [done|]. split; [congruence|].
  assert (E : (cell_of boundary (spatialGrid (updateGrid boundary w)) pa + ox
               + oy * gridSize (spatialGrid (updateGrid boundary w))
               + oz * gridSize (spatialGrid (updateGrid boundary w))
                 * gridSize (spatialGrid (updateGrid boundary w)))%Z
              = cell_of boundary g pb).
  { unfold cell_of, getGridIndex, updateGrid, set_spatialGrid.
    cbn [spatialGrid cellSize gridSize]. fold g. rewrite Ex, Ey, Ez. ring. }
  cbv zeta. rewrite E. split.
  - apply in_grid_spec. rewrite updateGrid_grid_length. by apply in_grid_spec.
  - by apply updateGrid_indexed.
Qed.

Lemma within_weaken (d1 d2 : Q) (a b : Position) :
  (d1 <= d2)%Q → within d1 a b → within d2 a b.
Proof.
  intros Hd (Hx & Hy & Hz). unfold within.
  repeat split; eapply Qlt_le_trans; eauto.
Qed.

(** The result of either loop, from the number of overlaps among the
    indices it tests. *)
Lemma checkCollisions_loop_result (i : nat) (cands : list nat) (w : World)
  (cube : Position) (d : Direction) :
  positions w !! i = Some cube → directions w !! i = Some d →
  Forall (λ j : nat, j < length (positions w)) cands →
  checkCollisions_loop random i cands w =
    if hasSplit cube then
      Some (false,
            set_directions w
              (<[i := Nat.iter (overlap_count w cube cands) reverse d]>
                 (directions w)))
    else if (overlap_count w cube cands =? 0)%nat then Some (false, w)
    else w1 ← splitCube random i w;
         Some (true, set_positions w1 (alter mark_split i (positions w1))).
Proof.
  intros Hp Hd Hv. destruct (hasSplit cube) eqn:Hs.
  - by apply checkCollisions_loop_bounce.
  - by apply checkCollisions_loop_split.
Qed.

(** X4: when the cell size is positive and at least the cube size and every
    cube has its flattened index in the cell array, the grid variant of
    [checkCollisions], called right after a rebuild, returns the same
    value and leaves the same state as the first variant, which tests
    every other cube. *)
Theorem fresh_grid_agrees_with_all_pairs (w : World) (i : nat) (cube : Position) :
  aligned w → positions w !! i = Some cube →
  (0 < cellSize (spatialGrid w))%Q → (cubeSize <= cellSize (spatialGrid w))%Q →
  all_indexed boundary w →
  checkCollisions random boundary i (updateGrid boundary w) =
  checkCollisions_all random i (updateGrid boundary w).
Proof.
  intros (La & Ls & Lc & Ld) Hp Hpos Hle Hall.
  set (w1 := updateGrid boundary w).
  assert (Hp1 : positions w1 !! i = Some cube) by done.
  destruct (lookup_lt_is_Some_2 (directions w1) i) as [d Hd].
  { apply lookup_lt_Some in Hp. unfold w1, updateGrid.
    cbn [directions set_spatialGrid]. lia. }
  destruct (getPotentialCollisions_valid boundary w1 i cube) as (cands & Hc & Hv);
    [apply updateGrid_ok|done|].
  rewrite checkCollisions_all_others. unfold checkCollisions. rewrite Hc.
  cbn [mbind option_bind].
  rewrite (checkCollisions_loop_result i cands w1 cube d) by done.
  rewrite (checkCollisions_loop_result i _ w1 cube d)
    by (try done; apply others_valid).
  assert (Hk : overlap_count w1 cube cands =
               overlap_count w1 cube (others i (length (positions w1)))).
  { apply overlap_count_eq.
    - by eapply getPotentialCollisions_NoDup.
    - apply others_NoDup.
    - intros j Hj _. apply others_elem.
      destruct (getPotentialCollisions_elem boundary w1 i cube Hp1)
        as (cands' & Hc' & Helem).
      replace cands' with cands in Helem by congruence.
      split.
      + by apply Helem in Hj as (? & ? & ? & _ & _ & _ & ? & _).
      + by apply (proj1 (Forall_forall _ _) Hv).
    - intros j Hj Ho. apply others_elem in Hj as [Hne Hlt].
      unfold overlaps in Ho.
      destruct (positions w1 !! j) as [pj|] eqn:Hpj; [|done].
      cbn [from_option] in Ho. apply collision_within in Ho.
      destruct (indexed_cube_is_candidate w i j cube pj Hp Hpj
                  (λ E, Hne (eq_sym E)) Hpos
                  (within_weaken _ _ _ _ Hle Ho) (Hall j pj Hpj))
        as (cands' & Hc' & Hin).
      fold w1 in Hc'. by replace cands with cands' by congruence. }
  by rewrite Hk.
Qed.

(** X5: whatever the grid holds (stale entries included, as long as they are
    indices of cubes), the grid variant reacts to no more overlaps than the
    first variant: the overlapping candidates are among the overlapping
    other cubes, and a call of the grid variant that splits the cube
    returns what the first variant returns. *)
Theorem grid_variant_sees_no_more (w : World) (i : nat) (cube : Position)
  (d : Direction) :
  grid_ok w → positions w !! i = Some cube → directions w !! i = Some d →
  ∃ cands : list nat,
    getPotentialCollisions boundary w i = Some cands ∧
    overlap_count w cube cands ≤
      overlap_count w cube (others i (length (positions w))) ∧
    ∀ w2 : World,
      checkCollisions random boundary i w = Some (true, w2) →
      checkCollisions_all random i w = Some (true, w2).
Proof.
  intros Hok Hp Hd.
  destruct (getPotentialCollisions_valid boundary w i cube Hok Hp)
    as (cands & Hc & Hv).
  exists cands. split; [done|].
  assert (Hle : overlap_count w cube cands ≤
                overlap_count w cube (others i (length (positions w)))).
  { apply overlap_count_le; [by eapply getPotentialCollisions_NoDup|].
    intros j Hj _. apply others_elem.
    destruct (getPotentialCollisions_elem boundary w i cube Hp)
      as (cands' & Hc' & Helem).
    replace cands' with cands in Helem by congruence.
    split.
    - by apply Helem in Hj as (? & ? & ? & _ & _ & _ & ? & _).
    - by apply (proj1 (Forall_forall _ _) Hv). }
  split; [done|].
  intros w2. rewrite checkCollisions_all_others. unfold checkCollisions.
  rewrite Hc. cbn [mbind option_bind].
  rewrite (checkCollisions_loop_result i cands w cube d) by done.
  rewrite (checkCollisions_loop_result i _ w cube d)
    by (try done; apply others_valid).
  destruct (hasSplit cube); [done|].
  destruct (Nat.eqb_spec (overlap_count w cube cands) 0) as [E|E]; [done|].
  destruct (Nat.eqb_spec
              (overlap_count w cube (others i (length (positions w)))) 0);
    [lia|done].
Qed.

(** X6: for a cube that has not split, in a world with aligned arrays whose
    grid only holds indices of cubes, [checkCollisions] returns [false] and
    changes nothing when no candidate overlaps it; when one does, it
    returns [true], eight cubes are appended, the flag of the cube is set,
    its coordinates are kept and no velocity of an existing cube changes
    (the velocity is reversed for cubes that have split only). *)
Theorem checkCollisions_splits_on_overlap (w : World) (i : nat) (cube : Position) :
  aligned w → grid_ok w →
  positions w !! i = Some cube → hasSplit cube = false →
  ∃ cands : list nat,
    getPotentialCollisions boundary w i = Some cands ∧
    (overlap_count w cube cands = 0 →
     checkCollisions random boundary i w = Some (false, w)) ∧
    (0 < overlap_count w cube cands →
     ∃ w2 : World,
       checkCollisions random boundary i w = Some (true, w2) ∧
       length (positions w2) = length (positions w) + 8 ∧
       positions w2 !! i = Some (mkPosition (x cube) (y cube) (z cube) true) ∧
       (∀ j : nat, j ≠ i → j < length (positions w) →
          positions w2 !! j = positions w !! j) ∧
       (∀ j : nat, j < length (positions w) →
          directions w2 !! j = directions w !! j)).
Proof.
  intros (La & Ls & Lc & Ld) Hok Hp Hs.
  pose proof (lookup_lt_Some _ _ _ Hp) as Hi.
  destruct (getPotentialCollisions_valid boundary w i cube Hok Hp)
    as (cands & Hc & Hv).
  exists cands. split; [done|].
  unfold checkCollisions. rewrite Hc. cbn [mbind option_bind].
  rewrite (checkCollisions_loop_split random i cands w cube) by done.
  split.
  - by intros ->.
  - intros Hk.
    destruct (Nat.eqb_spec (overlap_count w cube cands) 0) as [E|_]; [lia|].
    destruct (lookup_lt_is_Some_2 (angles w) i) as [a Ha]; [lia|].
    destruct (lookup_lt_is_Some_2 (speeds w) i) as [s Hsp]; [lia|].
    destruct (lookup_lt_is_Some_2 (colors w) i) as [c Hcol]; [lia|].
    rewrite (splitCube_spec random i w cube a s c) by done.
    cbn [mbind option_bind]. eexists. split; [reflexivity|].
    cbn [positions directions set_positions split_world].
    split; [by rewrite length_alter, length_app|]. split; [|split].
    + by rewrite list_lookup_alter_eq, lookup_app_l, Hp.
    + intros j Hne Hj. by rewrite list_lookup_alter_ne, lookup_app_l.
    + intros j Hj. rewrite lookup_app_l; [done|lia].
Qed.

End Variants.

(** ** The narrow-phase test *)

Lemma child_offset_small (v : Q) (i m : Z) :
  (Qabs (v + octant_offset i m - v) < cubeSize)%Q.
Proof.
  apply Qabs_Qlt_condition. unfold octant_offset, smallScale, cubeSize.
  destruct (Z.land i m =? 0)%Z; split; lra.
Qed.

(** X7: the narrow-phase test is symmetric, every cube overlaps itself (so
    that both variants must skip the cube's own index), and each of the
    eight cubes that [splitCube] makes for a parent at [p] overlaps [p]:
    the offsets are 0.1 on every axis and the test allows less than 0.2. *)
Theorem collision_symmetric_and_children_overlap (a b p : Position) (k : Z) :
  collision a b = collision b a ∧
  collision a a = true ∧
  collision (child_position p k) p = true.
Proof.
  split; [|split].
  - unfold collision.
    by rewrite (Qabs_Qminus (x a)), (Qabs_Qminus (y a)), (Qabs_Qminus (z a)).
  - apply collision_within. unfold within, cubeSize.
    repeat split; apply Qabs_Qlt_condition; split; lra.
  - apply collision_within. unfold within, child_position. cbn [x y z].
    repeat split; apply child_offset_small.
Qed.

(** The first theorem of the section on [near_pair]. *)
Lemma fresh_grid_agrees_with_all_pairs_witness :
  checkCollisions random_half boundary0 0 (updateGrid boundary0 near_pair) =
  checkCollisions_all random_half 0 (updateGrid boundary0 near_pair).
Proof.
  apply (fresh_grid_agrees_with_all_pairs random_half boundary0 near_pair 0
           (mkPosition 0 0 (-2) false)).
  - by repeat split.
  - reflexivity.
  - reflexivity.
  - discriminate.
  - intros [|[|j]] p Hp; [| |done]; injection Hp as <-; reflexivity.
Defined.

(** The second theorem on the first cube of [split_pair], with the grid
    rebuilt. *)
Lemma grid_variant_sees_no_more_witness :
  ∃ cands : list nat,
    getPotentialCollisions boundary0 (updateGrid boundary0 split_pair) 0
      = Some cands ∧
    overlap_count (updateGrid boundary0 split_pair) (mkPosition 0 0 (-2) true) cands
      ≤ overlap_count (updateGrid boundary0 split_pair) (mkPosition 0 0 (-2) true)
          (others 0 2).
Proof.
  destruct (grid_variant_sees_no_more random_half boundary0
              (updateGrid boundary0 split_pair) 0 (mkPosition 0 0 (-2) true)
              (mkDirection 0.005 0.003 0.002)
              (updateGrid_ok boundary0 split_pair) eq_refl eq_refl)
    as (cands & Hc & Hle & _).
  exists cands. split; [exact Hc|exact Hle].
Defined.

(** The third theorem on the first cube of [near_pair], with the grid
    rebuilt: the second cube overlaps it and it splits. *)
Lemma checkCollisions_splits_on_overlap_witness :
  ∃ w2 : World,
    checkCollisions random_half boundary0 0 (updateGrid boundary0 near_pair)
      = Some (true, w2) ∧
    length (positions w2) = 10 ∧
    positions w2 !! 0 = Some (mkPosition 0 0 (-2) true).
Proof.
  destruct (checkCollisions_splits_on_overlap random_half boundary0
              (updateGrid boundary0 near_pair) 0 (mkPosition 0 0 (-2) false)
              near_pair_aligned (updateGrid_ok boundary0 near_pair)
              eq_refl eq_refl)
    as (cands & Hc & _ & Hsplit).
  vm_compute in Hc. injection Hc as <-.
  destruct Hsplit as (w2 & Hcc & Hlen & Hp & _); [vm_compute; lia|].
  exists w2. split; [exact Hcc|]. split; [exact Hlen|exact Hp].
Defined.

(** ** The population *)

Section Population.

Variable random : nat -> Q.
Variable boundary : Boundary.

Lemma unsplit_count_insert (ps : list Position) (i : nat) (p p' : Position) :
  ps !! i = Some p →
  unsplit_count (<[i := p']> ps) + (if hasSplit p then 0 else 1) =
  unsplit_count ps + (if hasSplit p' then 0 else 1).
Proof.
  intros Hp. pose proof (lookup_lt_Some _ _ _ Hp) as Hi.
  rewrite (insert_take_drop ps i p' Hi).
  rewrite <- (take_drop_middle ps i p Hp) at 3.
  rewrite !unsplit_count_app, !unsplit_count_cons. lia.
Qed.

Lemma alter_mark_split (ps : list Position) (i : nat) (p : Position) :
  ps !! i = Some p → alter mark_split i ps = <[i := mark_split p]> ps.
Proof.
  intros Hp. rewrite list_insert_alter. apply list_alter_ext; [|done].
  intros q Hq. congruence.
Qed.

Lemma kids_unsplit (p : Position) (ks : list Z) :
  unsplit_count (child_position p <$> ks) = 0.
Proof.
  apply unsplit_count_split, Forall_fmap, Forall_true. by intros k.
Qed.

(** A split keeps the budget: eight more cubes, one cube less to split. *)
Lemma split_budget (i : nat) (w w1 : World) (cube : Position) :
  positions w !! i = Some cube → hasSplit cube = false →
  splitCube random i w = Some w1 →
  length (alter mark_split i (positions w1)) +
    8 * unsplit_count (alter mark_split i (positions w1))
  = population_budget w ∧
  unsplit_count (alter mark_split i (positions w1)) ≤ unsplit_count (positions w).
Proof.
  intros Hp Hs Hsp.
  apply splitCube_inv in Hsp as (p0 & a & s & c & Hp0 & _ & _ & _ & ->).
  cbn [positions split_world].
  assert (Hp' : (positions w ++ (child_position p0 <$> [0; 1; 2; 3; 4; 5; 6; 7]%Z))
                  !! i = Some cube) by (by apply lookup_app_l_Some).
  rewrite (alter_mark_split _ i cube Hp'), length_insert, length_app, length_fmap.
  pose proof (unsplit_count_insert _ i cube (mark_split cube) Hp') as E.
  rewrite Hs, unsplit_count_app, kids_unsplit in E. cbn [mark_split hasSplit] in E.
  unfold population_budget. cbn [length]. lia.
Qed.

Lemma checkCollisions_budget (i : nat) (w : World) (b : bool) (w2 : World) :
  checkCollisions random boundary i w = Some (b, w2) →
  population_budget w2 = population_budget w ∧
  unsplit_count (positions w2) ≤ unsplit_count (positions w).
Proof.
  intros H. apply checkCollisions_inv in H as [H|H].
  - destruct H as (_ & H1 & _). unfold population_budget. by rewrite H1.
  - destruct H as (_ & cube & w1 & Hp & Hs & Hsp & ->).
    unfold population_budget at 1. cbn [positions set_positions].
    by apply (split_budget i w w1 cube).
Qed.

Lemma render_body_budget (i : nat) (w w' : World) :
  render_body random boundary i w = Some w' →
  population_budget w' = population_budget w ∧
  unsplit_count (positions w') ≤ unsplit_count (positions w).
Proof.
  intros H.
  destruct (render_body_shape random boundary i w w' H)
    as (p & p' & kids & Hp & Hps & Hkids & Hcase & _).
  unfold population_budget. rewrite Hps, length_app, length_insert.
  rewrite unsplit_count_app, (unsplit_count_split kids Hkids).
  pose proof (unsplit_count_insert _ i p p' Hp) as E.
  destruct Hcase as [[-> Hs]|(Hk & Hs & Hs')].
  - rewrite Hs in E. cbn [length]. destruct (hasSplit p); lia.
  - rewrite Hs, Hs' in E. lia.
Qed.

Lemma render_loop_budget (fuel : nat) :
  ∀ (i : nat) (w w' : World),
    render_loop random boundary fuel i w = Some w' →
    population_budget w' = population_budget w ∧
    unsplit_count (positions w') ≤ unsplit_count (positions w).
Proof.
  induction fuel as [|fuel IH]; intros i w w' H; simpl in H;
    destruct (i <? length (positions w))%nat; try done.
  - by injection H as <-.
  - destruct (render_body random boundary i w) as [w1|] eqn:Hb; [|done].
    cbn [mbind option_bind] in H.
    destruct (render_body_budget i w w1 Hb) as [E1 L1].
    destruct (IH (S i) w1 w' H) as [E2 L2]. split; [congruence|lia].
  - by injection H as <-.
Qed.

Lemma perform_budget (a : Action) (w w' : World) :
  (∀ index : nat, a ≠ Split index) →
  perform random boundary a w = Some w' →
  population_budget w' = population_budget w ∧
  unsplit_count (positions w') ≤ unsplit_count (positions w).
Proof.
  intros Hns. destruct a as [| |index|index|]; cbn [perform]; intros H.
  - unfold render in H. by apply render_loop_budget in H.
  - injection H as <-. unfold population_budget.
    by rewrite colorSync_positions.
  - by destruct (Hns index).
  - destruct (checkCollisions random boundary index w) as [[b w2]|] eqn:Hcc;
      [|done].
    injection H as <-. by eapply checkCollisions_budget.
  - by injection H as <-.
Qed.

(** X8: through frames, colour syncs, collision checks and rebuilds, the
    number of cubes plus eight times the number of cubes that have not
    split never changes.  Cubes are never removed, the cubes that have not
    split never get more numerous, and the population never exceeds its
    initial size plus eight for each cube that had not split: the growth is
    bounded, and so is the number of iterations of the loop of a frame. *)
Theorem population_budget_is_constant (acts : list Action) (w w' : World) :
  no_bare_split acts →
  for_each (perform random boundary) acts w = Some w' →
  length (positions w') + 8 * unsplit_count (positions w')
    = length (positions w) + 8 * unsplit_count (positions w) ∧
  unsplit_count (positions w') ≤ unsplit_count (positions w) ∧
  length (positions w) ≤ length (positions w') ∧
  length (positions w') ≤ length (positions w) + 8 * unsplit_count (positions w).
Proof.
  intros Hacts H.
  assert (Hb : population_budget w' = population_budget w ∧
               unsplit_count (positions w') ≤ unsplit_count (positions w)).
  { revert w H. induction Hacts as [|a acts Ha _ IH]; intros w H.
    - by injection H as <-.
    - apply for_each_cons_inv in H as (w1 & H1 & H).
      destruct (perform_budget a w w1 Ha H1) as [E1 L1].
      destruct (IH w1 H) as [E2 L2]. split; [congruence|lia]. }
  destruct Hb as [E L]. unfold population_budget in E. lia.
Qed.

End Population.

(** The theorem on [near_pair]: two cubes that have not split, so never
    more than eighteen cubes. *)
Lemma population_budget_is_constant_witness :
  ∃ w' : World,
    for_each (perform random_half boundary0) [Frame; ColorSync; Frame] near_pair
      = Some w' ∧
    length (positions w') + 8 * unsplit_count (positions w') = 18 ∧
    length (positions w') ≤ 18.
Proof.
  assert (H : is_Some (for_each (perform random_half boundary0)
                         [Frame; ColorSync; Frame] near_pair))
    by (vm_compute; eauto).
  destruct H as [w' Hw'].
  assert (Hacts : no_bare_split [Frame; ColorSync; Frame])
    by (repeat constructor; discriminate).
  destruct (population_budget_is_constant random_half boundary0
              [Frame; ColorSync; Frame] near_pair w' Hacts Hw')
    as (Hb & _ & _ & Hle).
  exists w'. split; [exact Hw'|]. split; [exact Hb|exact Hle].
Defined.

(** ** Colour objects *)

Section ColorInvariant.

Variable random : nat -> Q.
Variable boundary : Boundary.
Hypothesis random_unit : ∀ n : nat, (0 <= random n <= 1)%Q.

Lemma updateColorTransition_ok (c : ColorState) (n : nat) :
  color_ok c → color_ok (fst (updateColorTransition random c n)).
Proof.
  intros (Hc & Ht & Ha & Hta & Hs0 & Hs1).
  destruct (updateColorTransition_in_unit random random_unit c n Hc Ht)
    as [Hc' Ht'].
  unfold color_ok. split; [done|]. split; [done|].
  unfold updateColorTransition in *.
  destruct (Qle_bool 1 (step c + 0.005)) eqn:E; cbn [fst current target step alpha].
  - split_and!; done.
  - split_and!; try done.
    + lra.
    + apply Qnot_le_lt. intros Hle. apply Qle_bool_iff in Hle. congruence.
Qed.

Lemma child_color_ok (c : ColorState) (n : nat) :
  color_ok c → color_ok (child_color random c n).
Proof.
  intros (Hc & Ht & Ha & Hta & Hs0 & Hs1). unfold color_ok, child_color.
  cbn [current target step alpha].
  split_and!; try done. unfold channels_in_unit. cbn [red green blue].
  split_and!; apply random_unit.
Qed.

Lemma split_world_colors_ok (p : Position) (a s : Q) (c : ColorState)
  (ks : list Z) (w : World) :
  color_ok c → Forall color_ok (colors w) →
  Forall color_ok (colors (split_world random p a s c ks w)).
Proof.
  intros Hc Hw. cbn [colors split_world]. apply Forall_app. split; [done|].
  apply Forall_fmap, Forall_true. intros k. by apply child_color_ok.
Qed.

Lemma splitCube_colors_ok (index : nat) (w w' : World) :
  splitCube random index w = Some w' →
  Forall color_ok (colors w) → Forall color_ok (colors w').
Proof.
  intros H Hok.
  apply splitCube_inv in H as (p & a & s & c & _ & _ & _ & Hc & ->).
  apply split_world_colors_ok; [|done].
  by apply (Forall_lookup_1 _ _ _ _ Hok Hc).
Qed.

Lemma checkCollisions_colors_ok (i : nat) (w : World) (b : bool) (w2 : World) :
  checkCollisions random boundary i w = Some (b, w2) →
  Forall color_ok (colors w) → Forall color_ok (colors w2).
Proof.
  intros H Hok. apply checkCollisions_inv in H as [H|H].
  - destruct H as (_ & _ & _ & _ & -> & _). done.
  - destruct H as (_ & cube & w1 & _ & _ & Hsp & ->).
    cbn [colors set_positions]. by eapply splitCube_colors_ok.
Qed.

Lemma render_body_colors_ok (i : nat) (w w' : World) :
  render_body random boundary i w = Some w' →
  Forall color_ok (colors w) → Forall color_ok (colors w').
Proof.
  intros H Hok.
  destruct (render_body_inv random boundary i w w' H)
    as (color & b & w2 & a & s & p & d & Hc & Hcc & _ & _ & _ & _ & ->).
  cbn [colors]. eapply checkCollisions_colors_ok; [exact Hcc|].
  unfold after_color. cbn [colors set_rng set_colors].
  apply Forall_insert; [done|].
  apply updateColorTransition_ok. by apply (Forall_lookup_1 _ _ _ _ Hok Hc).
Qed.

Lemma render_loop_colors_ok (fuel : nat) :
  ∀ (i : nat) (w w' : World),
    render_loop random boundary fuel i w = Some w' →
    Forall color_ok (colors w) → Forall color_ok (colors w').
Proof.
  induction fuel as [|fuel IH]; intros i w w' H Hok; simpl in H;
    destruct (i <? length (positions w))%nat; try done.
  - by injection H as <-.
  - destruct (render_body random boundary i w) as [w1|] eqn:Hb; [|done].
    cbn [mbind option_bind] in H.
    eapply IH; [exact H|]. by eapply render_body_colors_ok.
  - by injection H as <-.
Qed.

Lemma colorSync_colors_ok (w : World) :
  Forall color_ok (colors w) → Forall color_ok (colors (colorSync random w)).
Proof.
  intros Hok. unfold colorSync, getRandomColor. rewrite colorSync_loop_spec.
  cbn [colors set_rng set_colors].
  apply Forall_lookup. intros i c' Hi.
  rewrite list_lookup_imap in Hi.
  destruct (colors w !! i) as [c|] eqn:Hc; [|done].
  injection Hi as <-.
  destruct (Forall_lookup_1 _ _ _ _ Hok Hc) as (_ & _ & _ & _ & Hs0 & Hs1).
  unfold color_ok. cbn [current target step alpha].
  split_and!; try done; unfold channels_in_unit; cbn [red green blue];
    split_and!; apply random_unit.
Qed.

(** X9: when [Math.random()] answers in [0, 1], every operation of the
    program keeps every colour object well formed: the three channels of
    [current] and of [target] in [0, 1], both alphas equal to 1.0, and
    [step] in [0, 1). *)
Theorem colors_stay_well_formed (acts : list Action) (w w' : World) :
  Forall color_ok (colors w) →
  for_each (perform random boundary) acts w = Some w' →
  ∀ (i : nat) (c : ColorState),
    colors w' !! i = Some c →
    channels_in_unit (current c) ∧ channels_in_unit (target c) ∧
    alpha (current c) = 1.0%Q ∧ alpha (target c) = 1.0%Q ∧
    (0 <= step c)%Q ∧ (step c < 1)%Q.
Proof.
  intros Hok H.
  assert (Hok' : Forall color_ok (colors w')).
  { revert w Hok H. induction acts as [|a acts IH]; intros w Hok H.
    - by injection H as <-.
    - apply for_each_cons_inv in H as (w1 & Ha & H).
      apply (IH w1); [|done].
      destruct a as [| |index|index|]; cbn [perform] in Ha.
      + unfold render in Ha. by eapply render_loop_colors_ok in Ha.
      + injection Ha as <-. by apply colorSync_colors_ok.
      + by eapply splitCube_colors_ok.
      + destruct (checkCollisions random boundary index w) as [[b w2]|] eqn:Hcc;
          [|done].
        injection Ha as <-. by eapply checkCollisions_colors_ok.
      + by injection Ha as <-. }
  intros i c Hc. exact (Forall_lookup_1 _ _ _ _ Hok' Hc).
Qed.

End ColorInvariant.

Lemma world0_colors_ok (rnd : nat → Q) :
  (∀ n : nat, (0 <= rnd n <= 1)%Q) → Forall color_ok (colors (world0 rnd)).
Proof.
  intros Hr. cbn [colors world0]. unfold colors0.
  apply Forall_fmap, Forall_true. intros k. unfold color_ok.
  cbn [current target step alpha].
  split_and!; try done; unfold channels_in_unit; cbn [red green blue];
    split_and!; apply Hr.
Qed.

(** The theorem on [near_pair], with an oracle whose answers differ,
    through two frames and a colour sync. *)
Lemma colors_stay_well_formed_witness :
  ∃ w' : World,
    for_each (perform random_inv boundary0) [Frame; ColorSync; Frame] near_pair
      = Some w' ∧
    ∀ (i : nat) (c : ColorState),
      colors w' !! i = Some c →
      channels_in_unit (current c) ∧ alpha (current c) = 1.0%Q ∧
      (step c < 1)%Q.
Proof.
  assert (H : is_Some (for_each (perform random_inv boundary0)
                         [Frame; ColorSync; Frame] near_pair))
    by (vm_compute; eauto).
  destruct H as [w' Hw'].
  assert (Hok : Forall color_ok (colors near_pair)).
  { apply Forall_cons_2; [|apply Forall_cons_2; [|apply Forall_nil_2]];
      unfold color_ok, channels_in_unit;
      cbn [red green blue alpha current target step];
      split_and!; try reflexivity; lra. }
  exists w'. split; [exact Hw'|]. intros i c Hc.
  destruct (colors_stay_well_formed random_inv boundary0 random_inv_unit
              [Frame; ColorSync; Frame] near_pair w' Hok Hw' i c Hc)
    as (Hu & _ & Ha & _ & _ & Hs).
  split; [exact Hu|]. split; [exact Ha|exact Hs].
Defined.

(** ** Velocities *)

Section Velocities.

Variable random : nat -> Q.
Variable boundary : Boundary.

Lemma Qabs_flip (q : Q) : (Qabs (q * -1) == Qabs q)%Q.
Proof.
  rewrite <- (Qabs_opp q). apply Qabs_wd. ring.
Qed.

Lemma same_speed_refl (d : Direction) : same_speed d d.
Proof. by repeat split. Qed.

Lemma same_speed_trans (d1 d2 d3 : Direction) :
  same_speed d1 d2 → same_speed d2 d3 → same_speed d1 d3.
Proof.
  intros (A1 & A2 & A3) (B1 & B2 & B3). unfold same_speed.
  rewrite B1, B2, B3. by split_and!.
Qed.

Lemma same_speed_reverse (d : Direction) : same_speed d (reverse d).
Proof.
  unfold same_speed, reverse. cbn [dx dy dz]. split_and!; apply Qabs_flip.
Qed.

Lemma same_speed_bounce (p : Position) (d : Direction) :
  same_speed d (bounce boundary p d).
Proof.
  unfold bounce.
  apply (same_speed_trans _ (bounce_y boundary p (bounce_x boundary p d))).
  - apply (same_speed_trans _ (bounce_x boundary p d)).
    + unfold bounce_x. destruct (_ || _); [|apply same_speed_refl].
      unfold same_speed. cbn [dx dy dz].
      split_and!; [apply Qabs_flip|reflexivity|reflexivity].
    + unfold bounce_y. destruct (_ || _); [|apply same_speed_refl].
      unfold same_speed. cbn [dx dy dz].
      split_and!; [reflexivity|apply Qabs_flip|reflexivity].
  - unfold bounce_z. destruct (_ || _); [|apply same_speed_refl].
    unfold same_speed. cbn [dx dy dz].
    split_and!; [reflexivity|reflexivity|apply Qabs_flip].
Qed.

Lemma speed_origin_refl (ds : list Direction) : speed_origin random ds ds.
Proof.
  split; [done|]. intros j d Hd. left. exists d. split; [done|].
  apply same_speed_refl.
Qed.

Lemma speed_origin_trans (ds1 ds2 ds3 : list Direction) :
  speed_origin random ds1 ds2 → speed_origin random ds2 ds3 →
  speed_origin random ds1 ds3.
Proof.
  intros [L1 H1] [L2 H2]. split; [lia|]. intros j d3 Hd3.
  destruct (H2 j d3 Hd3) as [(d2 & Hd2 & S2)|(Hj & n & Sn)].
  - destruct (H1 j d2 Hd2) as [(d1 & Hd1 & S1)|(Hj & n & Sn)].
    + left. exists d1. split; [done|]. by apply (same_speed_trans _ d2).
    + right. split; [done|]. exists n. by apply (same_speed_trans _ d2).
  - right. split; [lia|]. by exists n.
Qed.

Lemma speed_origin_insert (ds : list Direction) (i : nat) (d d' : Direction) :
  ds !! i = Some d → same_speed d d' →
  speed_origin random ds (<[i := d']> ds).
Proof.
  intros Hd Hs. split; [by rewrite length_insert|]. intros j e He. left.
  destruct (decide (j = i)) as [->|Hne].
  - rewrite list_lookup_insert_eq in He by by eapply lookup_lt_Some.
    injection He as <-. by exists d.
  - rewrite list_lookup_insert_ne in He by done.
    exists e. split; [done|]. apply same_speed_refl.
Qed.

Lemma speed_origin_split (p : Position) (a s : Q) (c : ColorState)
  (ks : list Z) (w : World) :
  speed_origin random (directions w)
               (directions (split_world random p a s c ks w)).
Proof.
  cbn [directions split_world]. split; [rewrite length_app; lia|].
  intros j e He. apply lookup_app_Some in He as [He|[Hj He]].
  - left. exists e. split; [done|]. apply same_speed_refl.
  - right. split; [done|].
    apply list_lookup_fmap_Some in He as (k & -> & _).
    eexists. apply same_speed_refl.
Qed.

Lemma splitCube_origin (index : nat) (w w' : World) :
  splitCube random index w = Some w' →
  speed_origin random (directions w) (directions w').
Proof.
  intros H. apply splitCube_inv in H as (p & a & s & c & _ & _ & _ & _ & ->).
  apply speed_origin_split.
Qed.

Lemma checkCollisions_loop_origin (i : nat) (cands : list nat) :
  ∀ (w : World) (b : bool) (w2 : World),
    checkCollisions_loop random i cands w = Some (b, w2) →
    speed_origin random (directions w) (directions w2).
Proof.
  induction cands as [|j cands IH]; intros w b w2 H.
  - injection H as <- <-. apply speed_origin_refl.
  - cbn [checkCollisions_loop] in H.
    destruct (positions w !! i) as [cube|] eqn:Hp; [|done].
    cbn [mbind option_bind] in H.
    destruct (positions w !! j) as [other|] eqn:Ho; [|done].
    cbn [mbind option_bind] in H.
    destruct (collision cube other); [|by apply IH in H].
    destruct (hasSplit cube) eqn:Hs; cbn [negb] in H.
    + destruct (directions w !! i) as [d|] eqn:Hd; [|done].
      cbn [mbind option_bind] in H. apply IH in H.
      cbn [directions set_directions] in H.
      eapply speed_origin_trans; [|exact H].
      apply (speed_origin_insert _ i d); [done|apply same_speed_reverse].
    + destruct (splitCube random i w) as [w1|] eqn:Hsp; [|done].
      cbn [mbind option_bind] in H. injection H as <- <-.
      cbn [directions set_positions]. by eapply splitCube_origin.
Qed.

Lemma checkCollisions_origin (i : nat) (w : World) (b : bool) (w2 : World) :
  checkCollisions random boundary i w = Some (b, w2) →
  speed_origin random (directions w) (directions w2).
Proof.
  unfold checkCollisions. intros H.
  destruct (getPotentialCollisions boundary w i) as [cands|]; [|done].
  cbn [mbind option_bind] in H. by eapply checkCollisions_loop_origin.
Qed.

Lemma render_body_origin (i : nat) (w w' : World) :
  render_body random boundary i w = Some w' →
  speed_origin random (directions w) (directions w').
Proof.
  intros H.
  destruct (render_body_inv random boundary i w w' H)
    as (color & b & w2 & a & s & p & d & _ & Hcc & _ & _ & _ & Hd & ->).
  cbn [directions]. apply checkCollisions_origin in Hcc.
  eapply speed_origin_trans; [exact Hcc|].
  apply (speed_origin_insert _ i d); [done|apply same_speed_bounce].
Qed.

Lemma render_loop_origin (fuel : nat) :
  ∀ (i : nat) (w w' : World),
    render_loop random boundary fuel i w = Some w' →
    speed_origin random (directions w) (directions w').
Proof.
  induction fuel as [|fuel IH]; intros i w w' H; simpl in H;
    destruct (i <? length (positions w))%nat; try done.
  - injection H as <-. apply speed_origin_refl.
  - destruct (render_body random boundary i w) as [w1|] eqn:Hb; [|done].
    cbn [mbind option_bind] in H.
    eapply speed_origin_trans; [by eapply render_body_origin|by eapply IH].
  - injection H as <-. apply speed_origin_refl.
Qed.

Lemma colorSync_directions (w : World) :
  directions (colorSync random w) = directions w.
Proof. unfold colorSync, getRandomColor. by rewrite colorSync_loop_spec. Qed.

Lemma perform_origin (a : Action) (w w' : World) :
  perform random boundary a w = Some w' →
  speed_origin random (directions w) (directions w').
Proof.
  destruct a as [| |index|index|]; cbn [perform]; intros H.
  - unfold render in H. by apply render_loop_origin in H.
  - injection H as <-. rewrite colorSync_directions. apply speed_origin_refl.
  - by apply (splitCube_origin index).
  - destruct (checkCollisions random boundary index w) as [[b w2]|] eqn:Hcc;
      [|done].
    injection H as <-. by eapply checkCollisions_origin.
  - injection H as <-. apply speed_origin_refl.
Qed.

Lemma for_each_perform_origin (acts : list Action) :
  ∀ w w' : World,
    for_each (perform random boundary) acts w = Some w' →
    speed_origin random (directions w) (directions w').
Proof.
  induction acts as [|a acts IH]; intros w w' H.
  - injection H as <-. apply speed_origin_refl.
  - apply for_each_cons_inv in H as (w1 & Ha & H).
    eapply speed_origin_trans; [by eapply perform_origin|by apply IH].
Qed.

(** X10: no operation of the program changes how fast a cube moves.
    After any sequence of operations, each component of the velocity of a
    cube that was there at the start has the magnitude it had at the start
    (collisions and walls change signs only), and each component of the
    velocity of a cube created since has the magnitude of the random
    velocity that [splitCube] drew for it. *)
Theorem velocity_magnitudes_are_kept (acts : list Action) (w w' : World)
  (j : nat) (d' : Direction) :
  for_each (perform random boundary) acts w = Some w' →
  directions w' !! j = Some d' →
  (∃ d : Direction,
     directions w !! j = Some d ∧
     (Qabs (dx d') == Qabs (dx d))%Q ∧ (Qabs (dy d') == Qabs (dy d))%Q ∧
     (Qabs (dz d') == Qabs (dz d))%Q)
  ∨
  (length (directions w) ≤ j ∧
   ∃ n : nat,
     (Qabs (dx d') == Qabs ((random n - 0.5) * 0.01))%Q ∧
     (Qabs (dy d') == Qabs ((random (n + 1) - 0.5) * 0.01))%Q ∧
     (Qabs (dz d') == Qabs ((random (n + 2) - 0.5) * 0.01))%Q).
Proof.
  intros H Hd. apply for_each_perform_origin in H as [_ H].
  destruct (H j d' Hd) as [(d & Hd0 & Hs)|(Hj & n & Hs)].
  - left. by exists d.
  - right. split; [done|]. by exists n.
Qed.

Lemma child_direction_within (n : nat) (B : Q) :
  (∀ k : nat, (0 <= random k <= 1)%Q) → (0.005 <= B)%Q →
  speed_within B (child_direction random n).
Proof.
  intros Hr HB. unfold speed_within, child_direction. cbn [dx dy dz].
  pose proof (Hr n) as H0. pose proof (Hr (n + 1)) as H1.
  pose proof (Hr (n + 2)) as H2.
  split_and!; apply Qabs_Qle_condition; split; lra.
Qed.

Lemma same_speed_within (B : Q) (d d' : Direction) :
  same_speed d d' → speed_within B d → speed_within B d'.
Proof.
  intros (E1 & E2 & E3) (B1 & B2 & B3). unfold speed_within.
  rewrite E1, E2, E3. by split_and!.
Qed.

(** X11: when [Math.random()] answers in [0, 1] and no velocity component
    exceeds a bound of at least 0.005 in magnitude, none ever does,
    whatever the program does: the cubes never speed up. *)
Theorem velocities_stay_bounded (B : Q) (acts : list Action) (w w' : World) :
  (∀ k : nat, (0 <= random k <= 1)%Q) → (0.005 <= B)%Q →
  Forall (speed_within B) (directions w) →
  for_each (perform random boundary) acts w = Some w' →
  ∀ (j : nat) (d : Direction),
    directions w' !! j = Some d →
    (Qabs (dx d) <= B)%Q ∧ (Qabs (dy d) <= B)%Q ∧ (Qabs (dz d) <= B)%Q.
Proof.
  intros Hr HB Hw H j d' Hd. apply for_each_perform_origin in H as [_ H].
  destruct (H j d' Hd) as [(d & Hd0 & Hs)|(Hj & n & Hs)].
  - apply (same_speed_within B d d' Hs).
    exact (Forall_lookup_1 _ _ _ _ Hw Hd0).
  - apply (same_speed_within B _ d' Hs). by apply child_direction_within.
Qed.

End Velocities.

(** The theorem on [near_pair], through two frames and a colour sync: the
    first cube keeps the magnitudes 0.005, 0.003 and 0.002. *)
Lemma velocity_magnitudes_are_kept_witness :
  ∃ (w' : World) (d' : Direction),
    for_each (perform random_half boundary0) [Frame; ColorSync; Frame] near_pair
      = Some w' ∧
    directions w' !! 0 = Some d' ∧
    (Qabs (dx d') == 0.005)%Q ∧ (Qabs (dy d') == 0.003)%Q ∧
    (Qabs (dz d') == 0.002)%Q.
Proof.
  assert (H : is_Some (for_each (perform random_half boundary0)
                         [Frame; ColorSync; Frame] near_pair))
    by (vm_compute; eauto).
  destruct H as [w' Hw'].
  assert (Hd : is_Some (directions w' !! 0)).
  { assert (E : (λ v, bool_decide (is_Some (directions v !! 0)))
                  <$> for_each (perform random_half boundary0)
                        [Frame; ColorSync; Frame] near_pair
                = Some (bool_decide (is_Some (directions w' !! 0))))
      by (by rewrite Hw').
    vm_compute in E. injection E as E. symmetry in E.
    by apply bool_decide_eq_true in E. }
  destruct Hd as [d' Hd].
  destruct (velocity_magnitudes_are_kept random_half boundary0
              [Frame; ColorSync; Frame] near_pair w' 0 d' Hw' Hd)
    as [(d & Hd0 & H1 & H2 & H3)|(Hj & _)].
  - exists w', d'. split; [exact Hw'|]. split; [exact Hd|].
    apply (inj Some) in Hd0. rewrite <- Hd0 in H1, H2, H3.
    split; [exact H1|]. split; [exact H2|exact H3].
  - exfalso. cbn in Hj. lia.
Defined.

Lemma world0_speed_within (rnd : nat → Q) :
  Forall (speed_within 0.006) (directions (world0 rnd)).
Proof.
  cbn [directions world0]. unfold directions0.
  repeat constructor; cbn [dx dy dz]; apply Qabs_Qle_condition; split; lra.
Qed.

(** The theorem on [near_pair], whose velocity components are within
    0.005, through two frames and a colour sync. *)
Lemma velocities_stay_bounded_witness :
  ∃ w' : World,
    for_each (perform random_inv boundary0) [Frame; ColorSync; Frame] near_pair
      = Some w' ∧
    ∀ (j : nat) (d : Direction),
      directions w' !! j = Some d →
      (Qabs (dx d) <= 0.005)%Q ∧ (Qabs (dy d) <= 0.005)%Q ∧
      (Qabs (dz d) <= 0.005)%Q.
Proof.
  assert (H : is_Some (for_each (perform random_inv boundary0)
                         [Frame; ColorSync; Frame] near_pair))
    by (vm_compute; eauto).
  destruct H as [w' Hw'].
  assert (HB : (0.005 <= 0.005)%Q) by lra.
  assert (Hw : Forall (speed_within 0.005) (directions near_pair)).
  { apply Forall_cons_2; [|apply Forall_cons_2; [|apply Forall_nil_2]];
      unfold speed_within; cbn [dx dy dz];
      split_and!; apply Qabs_Qle_condition; split; lra. }
  exists w'. split; [exact Hw'|]. intros j d Hd.
  exact (velocities_stay_bounded random_inv boundary0 0.005
           [Frame; ColorSync; Frame] near_pair w'
           random_inv_unit HB Hw Hw' j d Hd).
Defined.

(** ** What a frame does to a cube *)

Section FrameMotion.

Variable random : nat -> Q.
Variable boundary : Boundary.




End FrameMotion.


(** ** Walls *)

Section Walls.

Variable random : nat -> Q.
Variable boundary : Boundary.


(** The loop body of [render] applies [glide] to a cube that no collision
    turns round. *)
Lemma render_body_glide (i : nat) (w w' : World) (p : Position) (d : Direction) :
  render_body random boundary i w = Some w' →
  positions w !! i = Some p → directions w !! i = Some d →
  hasSplit p = true →
  (∀ (cands : list nat) (color : ColorState),
     getPotentialCollisions boundary (after_color random i color w) i = Some cands →
     overlap_count (after_color random i color w) p cands = 0) →
  grid_ok w →
  positions w' !! i = Some (fst (glide boundary (p, d))) ∧
  directions w' !! i = Some (snd (glide boundary (p, d))).
Proof.
  intros H Hp Hd Hs Hno Hok.
  destruct (render_body_inv random boundary i w w' H)
    as (color & b & w2 & a & s & p2 & d2 & _ & Hcc & _ & _ & Hp2 & Hd2 & ->).
  unfold checkCollisions in Hcc.
  destruct (getPotentialCollisions boundary (after_color random i color w) i)
    as [cands|] eqn:Hc; [|done].
  cbn [mbind option_bind] in Hcc.
  destruct (getPotentialCollisions_valid boundary
              (after_color random i color w) i p Hok Hp) as (cands' & Hc' & Hv).
  rewrite Hc in Hc'. injection Hc' as <-.
  rewrite (checkCollisions_loop_bounce random i cands
             (after_color random i color w) p d Hp Hs Hd Hv) in Hcc.
  rewrite (Hno cands color Hc) in Hcc. cbn [Nat.iter] in Hcc.
  injection Hcc as _ <-.
  cbn [positions directions set_directions after_color set_rng set_colors] in *.
  rewrite list_lookup_insert_eq in Hd2 by by eapply lookup_lt_Some.
  assert (p2 = p) as -> by congruence. assert (d2 = d) as -> by congruence.
  rewrite !list_lookup_insert_eq; [done| |].
  - rewrite length_insert. by eapply lookup_lt_Some.
  - by eapply lookup_lt_Some.
Qed.





End Walls.


(** ** The colour transition in closed form *)

Section ColorClosedForm.

Variable random : nat -> Q.






End ColorClosedForm.


(** ** Play and pause *)

Section PlayPause.

Variable random : nat -> Q.
Variable boundary : Boundary.

Lemma run_callbacks_running (n : nat) :
  ∀ s s' : Player,
    animationPaused s = false →
    run_callbacks random boundary n s = Some s' →
    animationPaused s' = false ∧ requested s' = n + requested s ∧
    for_each (perform random boundary) (replicate n Frame) (scene s)
      = Some (scene s').
Proof.
  induction n as [|n IH]; intros s s' Hs H.
  - injection H as <-. by split_and!.
  - cbn [run_callbacks] in H. unfold render_call in H at 1. rewrite Hs in H.
    destruct (render random boundary (scene s)) as [w1|] eqn:Hr; [|done].
    cbn [mbind option_bind] in H.
    destruct (IH (mkPlayer false (S (requested s)) w1) s' eq_refl H)
      as (I1 & I2 & I3).
    cbn [requested scene] in I2, I3.
    split; [done|]. split; [lia|].
    cbn [replicate for_each perform]. rewrite Hr. exact I3.
Qed.

Lemma run_callbacks_paused (n : nat) (s : Player) :
  animationPaused s = true → run_callbacks random boundary n s = Some s.
Proof.
  intros Hs. induction n as [|n IH]; [done|].
  cbn [run_callbacks]. unfold render_call at 1. by rewrite Hs.
Qed.

Lemma playPause_running (s : Player) :
  animationPaused s = false →
  playPause random boundary s = Some (mkPlayer true (requested s) (scene s)).
Proof. intros Hs. unfold playPause. cbn [animationPaused]. by rewrite Hs. Qed.

Lemma playPause_paused (s : Player) :
  animationPaused s = true →
  playPause random boundary s =
    w1 ← render random boundary (scene s);
    Some (mkPlayer false (S (requested s)) w1).
Proof.
  intros Hs. unfold playPause, render_call.
  cbn [animationPaused requested scene]. by rewrite Hs.
Qed.

(** X15: the animation while it runs, and what the play/pause button does
    to it.  An animation frame runs every requested callback: each renders
    one frame and requests itself again, so their number stays.  A pause
    and a resume between two animation frames leave the callback that was
    requested and add another one, after rendering a frame at once: from
    then on one more frame is rendered per animation frame.  A pause, an
    animation frame and a resume leave exactly one callback. *)
Theorem pause_resume_adds_a_callback (s s' : Player) :
  animationPaused s = false →
  (animation_frame random boundary s = Some s' →
   animationPaused s' = false ∧ requested s' = requested s ∧
   for_each (perform random boundary) (replicate (requested s) Frame) (scene s)
     = Some (scene s')) ∧
  (playPause random boundary s ≫= playPause random boundary = Some s' →
   animationPaused s' = false ∧ requested s' = S (requested s) ∧
   render random boundary (scene s) = Some (scene s')) ∧
  ((playPause random boundary s ≫= animation_frame random boundary)
     ≫= playPause random boundary = Some s' →
   animationPaused s' = false ∧ requested s' = 1 ∧
   render random boundary (scene s) = Some (scene s')).
Proof.
  intros Hs. split_and!.
  - intros H. unfold animation_frame in H.
    apply run_callbacks_running in H as (H1 & H2 & H3); [|done].
    cbn [requested scene] in H2, H3. split; [done|]. split; [lia|done].
  - rewrite (playPause_running s Hs). cbn [mbind option_bind].
    rewrite playPause_paused by done. cbn [requested scene]. intros H.
    destruct (render random boundary (scene s)) as [w1|] eqn:Hr; [|done].
    cbn [mbind option_bind] in H. by injection H as <-.
  - rewrite (playPause_running s Hs). cbn [mbind option_bind].
    unfold animation_frame. cbn [animationPaused requested scene].
    rewrite run_callbacks_paused by done. cbn [mbind option_bind].
    rewrite playPause_paused by done. cbn [requested scene]. intros H.
    destruct (render random boundary (scene s)) as [w1|] eqn:Hr; [|done].
    cbn [mbind option_bind] in H. by injection H as <-.
Qed.

End PlayPause.

(** The second part of the theorem on the running animation of
    [near_pair]: after a pause and a resume two callbacks are requested. *)
Lemma pause_resume_adds_a_callback_witness :
  ∃ s' : Player,
    playPause random_half boundary0 (mkPlayer false 1 near_pair)
      ≫= playPause random_half boundary0 = Some s' ∧
    animationPaused s' = false ∧ requested s' = 2.
Proof.
  destruct (render_total random_half boundary0 near_pair near_pair_aligned)
    as [w' Hw'].
  assert (H : playPause random_half boundary0 (mkPlayer false 1 near_pair)
                ≫= playPause random_half boundary0
              = Some (mkPlayer false 2 w')).
  { rewrite playPause_running by reflexivity. cbn [mbind option_bind].
    rewrite playPause_paused by reflexivity. cbn [requested scene].
    rewrite Hw'. reflexivity. }
  destruct (pause_resume_adds_a_callback random_half boundary0
              (mkPlayer false 1 near_pair) (mkPlayer false 2 w') eq_refl)
    as (_ & H2 & _).
  destruct (H2 H) as (Hp & Hq & _).
  exists (mkPlayer false 2 w'). split; [exact H|]. split; [exact Hp|exact Hq].
Defined.

(** ** The reference grid *)

Section ReferenceGrid.

Variable gridSize : Z.
Variable gridStep : Q.

Lemma flat_points_app (l1 l2 : list (Q * Q)) :
  flat_points (l1 ++ l2) = flat_points l1 ++ flat_points l2.
Proof. apply flat_map_app. Qed.

Lemma flat_points_length (pts : list (Q * Q)) :
  length (flat_points pts) = 3 * length pts.
Proof.
  induction pts as [|v pts IH]; [done|].
  change (flat_points (v :: pts)) with ([fst v; 0%Q; snd v] ++ flat_points pts).
  rewrite length_app, IH. cbn [length]. lia.
Qed.

Lemma seq_push4 (n : nat) :
  seq 0 n ++ [n; n + 1] ++ [n + 2; n + 2 + 1] = seq 0 (n + 2 + 2).
Proof.
  replace (n + 2 + 2) with (n + 4) by lia. rewrite seq_app.
  cbn [seq Nat.add app]. repeat f_equal; lia.
Qed.

Lemma Qabs_scaled (i : Z) :
  (0 <= gridStep)%Q → (- gridSize <= i <= gridSize)%Z →
  (Qabs (inject_Z i * gridStep) <= inject_Z gridSize * gridStep)%Q.
Proof.
  intros Hs [H1 H2]. rewrite Qabs_Qmult, (Qabs_pos gridStep Hs).
  apply Qmult_le_compat_r; [|done].
  apply Qabs_Qle_condition. split.
  - rewrite <- inject_Z_opp, <- Zle_Qle. lia.
  - rewrite <- Zle_Qle. lia.
Qed.

Lemma gridLines_body_ok (i : Z) (s : GridLines) :
  (0 <= gridStep)%Q → (- gridSize <= i <= gridSize)%Z →
  lines_ok (inject_Z gridSize * gridStep) s →
  lines_ok (inject_Z gridSize * gridStep) (gridLines_body gridSize gridStep i s) ∧
  index (gridLines_body gridSize gridStep i s) = index s + 4.
Proof.
  intros Hs Hi (Hidx & pts & Hv & Hlen & Hb).
  pose proof (Qabs_scaled i Hs Hi) as Hbi.
  assert (Hbg : (Qabs (inject_Z gridSize * gridStep)
                 <= inject_Z gridSize * gridStep)%Q)
    by (apply Qabs_scaled; [done|lia]).
  assert (Hbn : (Qabs (- inject_Z gridSize * gridStep)
                 <= inject_Z gridSize * gridStep)%Q).
  { rewrite <- inject_Z_opp. apply Qabs_scaled; [done|lia]. }
  unfold lines_ok, gridLines_body. cbn [gridVertices gridIndices index].
  split; [|lia]. split.
  - rewrite Hidx, <- app_assoc. apply seq_push4.
  - exists (pts ++ [ ((inject_Z i * gridStep)%Q, (- inject_Z gridSize * gridStep)%Q);
                     ((inject_Z i * gridStep)%Q, (inject_Z gridSize * gridStep)%Q);
                     ((- inject_Z gridSize * gridStep)%Q, (inject_Z i * gridStep)%Q);
                     ((inject_Z gridSize * gridStep)%Q, (inject_Z i * gridStep)%Q) ]).
    split; [|split].
    + rewrite flat_points_app, Hv, <- !app_assoc. reflexivity.
    + rewrite length_app. cbn [length]. lia.
    + apply Forall_app. split; [done|].
      repeat (apply Forall_cons_2; [by cbn [fst snd]|]). apply Forall_nil_2.
Qed.

Lemma gridLines_foldl_ok (l : list Z) :
  ∀ s : GridLines,
    (0 <= gridStep)%Q → Forall (λ i : Z, (- gridSize <= i <= gridSize)%Z) l →
    lines_ok (inject_Z gridSize * gridStep) s →
    lines_ok (inject_Z gridSize * gridStep)
      (foldl (λ (s : GridLines) (i : Z), gridLines_body gridSize gridStep i s) s l) ∧
    index (foldl (λ (s : GridLines) (i : Z), gridLines_body gridSize gridStep i s) s l)
      = index s + 4 * length l.
Proof.
  induction l as [|i l IH]; intros s Hs Hl Hok.
  - cbn [foldl length]. split; [done|lia].
  - apply Forall_cons in Hl as [Hi Hl]. cbn [foldl length].
    destruct (gridLines_body_ok i s Hs Hi Hok) as [Hok1 Hi1].
    destruct (IH _ Hs Hl Hok1) as [Hok2 Hi2]. split; [done|]. lia.
Qed.

Lemma line_range_bounds :
  Forall (λ i : Z, (- gridSize <= i <= gridSize)%Z) (line_range gridSize).
Proof.
  unfold line_range. apply Forall_fmap, Forall_forall. intros k Hk.
  apply elem_of_seq in Hk. cbn. lia.
Qed.

(** X16: the loop that builds the reference grid, for any number of lines
    and any spacing that is not negative.  With [n = 2 * gridSize + 1]
    values of [i], it leaves [index = 4 * n]; [gridIndices] is 0, 1, ...,
    [4 * n - 1] in order, so each vertex is the end of exactly one line;
    and [gridVertices] holds [4 * n] points, each in the plane y = 0 with x
    and z within [gridSize * gridStep] of the origin. *)
Theorem grid_lines_are_indexed_in_order :
  (0 <= gridStep)%Q →
  let n := Z.to_nat (2 * gridSize + 1) in
  let r := gridLines gridSize gridStep in
  index r = 4 * n ∧
  gridIndices r = seq 0 (4 * n) ∧
  length (gridVertices r) = 3 * (4 * n) ∧
  ∃ pts : list (Q * Q),
    gridVertices r = flat_points pts ∧ length pts = 4 * n ∧
    ∀ v : Q * Q, v ∈ pts →
      (Qabs (fst v) <= inject_Z gridSize * gridStep)%Q ∧
      (Qabs (snd v) <= inject_Z gridSize * gridStep)%Q.
Proof.
  intros Hs n r.
  assert (H0 : lines_ok (inject_Z gridSize * gridStep) (mkGridLines [] [] 0)).
  { split; [done|]. exists []. by split_and!. }
  destruct (gridLines_foldl_ok (line_range gridSize) _ Hs line_range_bounds H0)
    as [(Hidx & pts & Hv & Hlen & Hb) Hi].
  fold (gridLines gridSize gridStep) in Hidx, Hv, Hlen, Hi. fold r in Hidx, Hv, Hlen, Hi.
  assert (Hn : index r = 4 * n).
  { rewrite Hi. unfold line_range. rewrite length_fmap, length_seq.
    cbn [index]. lia. }
  split; [done|]. split; [by rewrite Hidx, Hn|]. split.
  - rewrite Hv, <- Hn, <- Hlen. apply flat_points_length.
  - exists pts. split; [done|]. split; [lia|].
    intros v Hv'. by apply (proj1 (Forall_forall _ _) Hb).
Qed.

End ReferenceGrid.

(** The theorem on the grid of the program, [gridSize = 10] and
    [gridStep = 0.5]: 42 lines, 84 vertices, 252 coordinates. *)
Lemma grid_lines_are_indexed_in_order_witness :
  gridIndices (gridLines 10 0.5) = seq 0 84 ∧
  length (gridVertices (gridLines 10 0.5)) = 252.
Proof.
  assert (Hs : (0 <= 0.5)%Q) by lra.
  destruct (grid_lines_are_indexed_in_order 10 0.5 Hs) as (_ & Hi & Hl & _).
  split; [exact Hi|exact Hl].
Defined.

(** ** The flattened index of a cell *)

Section GridIndex.

Variable boundary : Boundary.
Variable g : SpatialGrid.





End GridIndex.


(** ** No exception *)

Section NoException.

Variable random : nat -> Q.
Variable boundary : Boundary.







End NoException.


(** ** Candidates after a rebuild *)

Section GridSymmetry.

Variable boundary : Boundary.

Lemma updateGrid_cell_members (w : World) (k : nat) (cell : list nat) (j : nat) :
  grid (spatialGrid (updateGrid boundary w)) !! k = Some cell → j ∈ cell →
  ∃ p : Position,
    positions w !! j = Some p ∧
    in_grid (grid (spatialGrid w)) (cell_of boundary (spatialGrid w) p) = true ∧
    Z.to_nat (cell_of boundary (spatialGrid w) p) = k.
Proof.
  intros Hk Hj. set (g := spatialGrid w) in *. unfold updateGrid in Hk.
  cbn [spatialGrid set_spatialGrid grid] in Hk. fold g in Hk.
  assert (Hk0 : ((λ _ : list nat, @nil nat) <$> grid g) !! k = Some []).
  { rewrite list_lookup_fmap. apply lookup_lt_Some in Hk.
    rewrite updateGrid_loop_length, length_fmap in Hk.
    destruct (lookup_lt_is_Some_2 (grid g) k Hk) as [c Hc]. by rewrite Hc. }
  destruct (updateGrid_loop_cell boundary g (positions w) _ 0 k [] Hk0)
    as (extra & Hres & _ & Hiff).
  rewrite Hres in Hk. apply (inj Some) in Hk. rewrite <- Hk in Hj.
  apply Hiff in Hj as (m & p & -> & Hm & Hin & Hc). exists p.
  rewrite (in_grid_length (grid g)) in Hin by (by rewrite length_fmap).
  by split_and!.
Qed.

Lemma offsets_opp (o : Z) : o ∈ offsets → (- o)%Z ∈ offsets.
Proof.
  unfold offsets. rewrite !elem_of_cons, elem_of_nil.
  intros [->|[->|[->|[]]]]; cbn; tauto.
Qed.

(** X19: right after a rebuild of the grid, being a candidate is
    symmetric for the cubes that the grid holds: if the cube [i] has its
    flattened index in the cell array and [getPotentialCollisions(i)]
    lists [j], then [getPotentialCollisions(j)] lists [i]. *)
Theorem fresh_candidates_are_symmetric (w : World) (i j : nat) (pi : Position) :
  positions w !! i = Some pi →
  in_grid (grid (spatialGrid w)) (cell_of boundary (spatialGrid w) pi) = true →
  candidate_of boundary (updateGrid boundary w) i j →
  candidate_of boundary (updateGrid boundary w) j i.
Proof.
  intros Hpi Hin (cands & Hc & Hj). set (g := spatialGrid w) in *.
  destruct (getPotentialCollisions_elem boundary (updateGrid boundary w) i pi Hpi)
    as (cands' & Hc' & Hel).
  rewrite Hc in Hc'. apply (inj Some) in Hc'. subst cands'.
  apply Hel in Hj as (ox & oy & oz & Hox & Hoy & Hoz & Hne & Hni & cell & Hcell & Hjc).
  cbv zeta in Hni, Hcell.
  change (gridSize (spatialGrid (updateGrid boundary w))) with (gridSize g)
    in Hni, Hcell.
  change (cell_of boundary (spatialGrid (updateGrid boundary w)) pi)
    with (cell_of boundary g pi) in Hni, Hcell.
  destruct (updateGrid_cell_members w _ cell j Hcell Hjc)
    as (pj & Hpj & Hinj & Hk).
  fold g in Hinj, Hk.
  apply in_grid_spec in Hni as Hni'. apply in_grid_spec in Hinj as Hinj'.
  assert (E : (cell_of boundary g pj
               = cell_of boundary g pi + ox + oy * gridSize g
                 + oz * gridSize g * gridSize g)%Z) by lia.
  destruct (getPotentialCollisions_elem boundary (updateGrid boundary w) j pj Hpj)
    as (cj & Hcj & Helj).
  exists cj. split; [done|]. apply Helj.
  exists (- ox)%Z, (- oy)%Z, (- oz)%Z.
  split; [by apply offsets_opp|]. split; [by apply offsets_opp|].
  split; [by apply offsets_opp|]. split; [congruence|].
  cbv zeta.
  change (gridSize (spatialGrid (updateGrid boundary w))) with (gridSize g).
  change (cell_of boundary (spatialGrid (updateGrid boundary w)) pj)
    with (cell_of boundary g pj).
  replace (cell_of boundary g pj + - ox + - oy * gridSize g
           + - oz * gridSize g * gridSize g)%Z
    with (cell_of boundary g pi) by lia.
  split.
  - apply in_grid_spec. rewrite updateGrid_grid_length. by apply in_grid_spec.
  - by apply updateGrid_indexed.
Qed.

End GridSymmetry.

(** The theorem on the two cubes of [near_pair]: each is a candidate of the
    other. *)
Lemma fresh_candidates_are_symmetric_witness :
  candidate_of boundary0 (updateGrid boundary0 near_pair) 1 0.
Proof.
  apply (fresh_candidates_are_symmetric boundary0 near_pair 0 1
           (mkPosition 0 0 (-2) false)).
  - reflexivity.
  - reflexivity.
  - exists [1]. split; [|apply list_elem_of_singleton; reflexivity].
    vm_compute. reflexivity.
Defined.
